(** * w6_mem: allocator interface, STL allocator adapter and UniquePtr

    A shallow embedding of the header-only library [w6_mem]:
    - [allocator.h]      the [IAllocator] interface,
    - [stl_allocator.h]  [StlAllocator<T>], the adapter for standard containers,
    - [unique_ptr.h]     [UniquePtr<T>], [UniquePtr<T[]>] and [make_unique].

    Pointers are addresses in [Z] with [0] for [nullptr].  [std::size_t] is a
    [size_bits]-bit unsigned integer, kept in [Z] with its wrap-around written
    out.  Calls that reach outside the library (the virtual allocator, the
    constructors and destructors of the element type) are recorded in a trace
    of events, so that "how often" and "in which order" can be stated. *)

From stdpp Require Import base option list gmap fin_maps.
From Stdlib Require Import ZArith Lia.

Local Open Scope Z_scope.

(** ** Addresses and machine integers *)

Definition ptr : Type := Z.
Definition nullptr : ptr := 0.

(** Contextual conversion of a pointer to [bool] ([if (p)], [!p], [p && q]). *)
Definition ptr_to_bool (p : ptr) : bool := negb (p =? 0).

(** Arithmetic on [std::size_t] is modulo [2 ^ size_bits]. *)
Definition wrap (size_bits : Z) (x : Z) : Z := x mod 2 ^ size_bits.

(** Variables holding a smart pointer are named by locations, so that two
    references to the same object can be told from two equal objects. *)
Definition loc : Type := nat.

(** ** Events *)

Inductive event : Type :=
| EvAllocate (self : ptr) (size alignment : Z) (result : ptr)
| EvDeallocate (self : ptr) (p : ptr)
| EvConstruct (p : ptr)
| EvDestroy (p : ptr).

Definition is_construct (e : event) : bool :=
  match e with EvConstruct _ => true | _ => false end.
Definition is_destroy (e : event) : bool :=
  match e with EvDestroy _ => true | _ => false end.
Definition is_deallocate (e : event) : bool :=
  match e with EvDeallocate _ _ => true | _ => false end.

(** How many events of a trace satisfy [f]. *)
Fixpoint count (f : event -> bool) (t : list event) : nat :=
  match t with
  | [] => O
  | e :: t' => ((if f e then 1 else 0) + count f t')%nat
  end.

(** ** allocator.h: the interface

    [IAllocator] has two pure virtual methods.  An implementation is a type
    of allocator-side state together with the two methods; [self] is the
    address of the instance the call is dispatched on. *)

Class IAllocator (World : Type) : Type := {
  allocate : ptr -> Z -> Z -> World -> ptr * World;
  deallocate : ptr -> ptr -> World -> World
}.

(** The element type [T] of a template instance: [sizeof(T)], [alignof(T)]. *)
Class ElemType (T : Type) : Type := {
  sizeof : Z;
  alignof : Z
}.
Arguments sizeof T {_}.
Arguments alignof T {_}.

(** The part of the machine the library acts on: the allocators' own state,
    the objects alive at each address and the trace of events so far. *)
Record Heap (World T : Type) : Type := mkHeap {
  world : World;
  objects : gmap Z T;
  trace : list event
}.
Arguments mkHeap {World T}.
Arguments world {World T}.
Arguments objects {World T}.
Arguments trace {World T}.

Section Calls.
Context {World : Type} `{!IAllocator World} {T : Type} `{!ElemType T}.

(** [allocator->allocate(size, alignment)] *)
Definition call_allocate (self : ptr) (size alignment : Z) (h : Heap World T)
  : ptr * Heap World T :=
  let '(r, w) := allocate self size alignment (world h) in
  (r, mkHeap w (objects h) (trace h ++ [EvAllocate self size alignment r])).

(** [allocator->deallocate(p)] *)
Definition call_deallocate (self : ptr) (p : ptr) (h : Heap World T)
  : Heap World T :=
  mkHeap (deallocate self p (world h)) (objects h)
         (trace h ++ [EvDeallocate self p]).

(** [new (memory) T(args...)]: the object [v] the constructor builds is
    alive at [memory] afterwards; the expression yields [memory]. *)
Definition placement_new (memory : ptr) (v : T) (h : Heap World T)
  : ptr * Heap World T :=
  (memory, mkHeap (world h) (<[memory := v]> (objects h))
                  (trace h ++ [EvConstruct memory])).

(** [std::destroy_at(p)]: runs the destructor of the object at [p]. *)
Definition destroy_at (p : ptr) (h : Heap World T) : Heap World T :=
  mkHeap (world h) (delete p (objects h)) (trace h ++ [EvDestroy p]).

(** [new (memory) T[n]()]: [n] value-initialised elements, lowest address
    first.  The non-allocating placement form keeps no array cookie, so the
    first element is at [memory], which is what the expression yields. *)
Fixpoint construct_n (first : ptr) (n : nat) (v : T) (h : Heap World T)
  : Heap World T :=
  match n with
  | O => h
  | S k => construct_n (first + sizeof T) k v (snd (placement_new first v h))
  end.

Definition placement_new_array (memory : ptr) (n : Z) (v : T) (h : Heap World T)
  : ptr * Heap World T :=
  (memory, construct_n memory (Z.to_nat n) v h).

(** [std::destroy(first, first + n)]:
    [for (; first != last; ++first) std::destroy_at(std::addressof( *first))]. *)
Fixpoint destroy_n (first : ptr) (n : nat) (h : Heap World T) : Heap World T :=
  match n with
  | O => h
  | S k => destroy_n (first + sizeof T) k (destroy_at first h)
  end.

Definition destroy (first : ptr) (n : Z) (h : Heap World T) : Heap World T :=
  destroy_n first (Z.to_nat n) h.
End Calls.

(** Addresses of the [n] elements of an array that starts at [first]. *)
Fixpoint element_addrs (stride : Z) (first : ptr) (n : nat) : list ptr :=
  match n with
  | O => []
  | S k => first :: element_addrs stride (first + stride) k
  end.

(** ** stl_allocator.h *)

Module Stl.

(** [StlAllocator<T>] has one data member, the allocator it forwards to. *)
Record StlAllocator (T : Type) : Type := mkStlAllocator {
  m_allocator : ptr
}.
Arguments mkStlAllocator {T}.
Arguments m_allocator {T}.

(** [StlAllocator(IAllocator* allocator)] *)
Definition StlAllocator_ctor {T : Type} (allocator : ptr) : StlAllocator T :=
  mkStlAllocator allocator.

Definition get_allocator {T : Type} (a : StlAllocator T) : ptr := m_allocator a.

(** [template <typename U> StlAllocator(const StlAllocator<U>& other)] *)
Definition StlAllocator_rebind {U T : Type} (other : StlAllocator U)
  : StlAllocator T :=
  mkStlAllocator (get_allocator other).

Definition operator_eq {T : Type} (a other : StlAllocator T) : bool :=
  m_allocator a =? m_allocator other.

Definition operator_ne {T : Type} (a other : StlAllocator T) : bool :=
  negb (operator_eq a other).

Section Methods.
Context {World : Type} `{!IAllocator World} {T : Type} `{!ElemType T}.
Variable size_bits : Z.

(** [T* allocate(size_type n)] *)
Definition allocate (a : StlAllocator T) (n : Z) (h : Heap World T)
  : ptr * Heap World T :=
  if n =? 0 then (nullptr, h)
  else call_allocate (m_allocator a) (wrap size_bits (n * sizeof T))
                     (alignof T) h.

(** [void deallocate(T* p, size_type)] *)
Definition deallocate (a : StlAllocator T) (p : ptr) (n : Z) (h : Heap World T)
  : Heap World T :=
  if ptr_to_bool p then call_deallocate (m_allocator a) p h else h.
End Methods.

End Stl.


(** ** Objects held in variables

    A store maps the location of each live smart-pointer variable to its
    value.  A reference parameter is a location; reading through a location
    with no live object has no defined result ([None]). *)

Section Store.
Context {P : Type}.

(** [l.member = v] *)
Definition update (l : loc) (f : P -> P) (s : gmap loc P) : option (gmap loc P) :=
  p ← s !! l; Some (<[l := f p]> s).

(** [std::swap(a.member, b.member)] for a data member read by [get] and
    written by [set]: [tmp = move(a.member); a.member = move(b.member);
    b.member = move(tmp)].  [a] and [b] may be the same object. *)
Definition swap_member {F : Type} (get : P -> F) (set : F -> P -> P)
  (a b : loc) (s : gmap loc P) : option (gmap loc P) :=
  pa ← s !! a;
  pb ← s !! b;
  s1 ← update a (set (get pb)) s;
  update b (set (get pa)) s1.
End Store.

(** ** Assertions

    [assert] is active in a debug build and expands to nothing under
    [NDEBUG]. *)

Inductive build : Type := Debug | Release.

Inductive outcome (A : Type) : Type :=
| Returns (a : A)
| AssertionFailed
| Undefined.
Arguments Returns {A}.
Arguments AssertionFailed {A}.
Arguments Undefined {A}.

Definition assert_ (b : build) (cond : bool) : outcome unit :=
  match b with
  | Debug => if cond then Returns tt else AssertionFailed
  | Release => Returns tt
  end.

(** [*p] for a raw pointer: the reference obtained is the address itself;
    reading through a null pointer is undefined. *)
Definition deref (p : ptr) : outcome ptr :=
  if ptr_to_bool p then Returns p else Undefined.

(** ** unique_ptr.h: [UniquePtr<T>] *)

Module Scalar.

Record UniquePtr : Type := mkUniquePtr {
  m_allocator : ptr;
  m_ptr : ptr;
  m_allocated_memory : ptr
}.

Definition set_m_allocator (v : ptr) (p : UniquePtr) : UniquePtr :=
  mkUniquePtr v (m_ptr p) (m_allocated_memory p).
Definition set_m_ptr (v : ptr) (p : UniquePtr) : UniquePtr :=
  mkUniquePtr (m_allocator p) v (m_allocated_memory p).
Definition set_m_allocated_memory (v : ptr) (p : UniquePtr) : UniquePtr :=
  mkUniquePtr (m_allocator p) (m_ptr p) v.

(** [constexpr UniquePtr()] *)
Definition UniquePtr_default : UniquePtr := mkUniquePtr nullptr nullptr nullptr.

(** [constexpr UniquePtr(std::nullptr_t)] *)
Definition UniquePtr_nullptr : UniquePtr := UniquePtr_default.

(** [UniquePtr(IAllocator* allocator, pointer p, void* allocated_memory)] *)
Definition UniquePtr_ctor (allocator p allocated_memory : ptr) : UniquePtr :=
  mkUniquePtr allocator p allocated_memory.

Definition get (p : UniquePtr) : ptr := m_ptr p.

(** [explicit operator bool() const { return !!m_ptr; }] *)
Definition operator_bool (p : UniquePtr) : bool :=
  negb (negb (ptr_to_bool (m_ptr p))).

(** [T& operator*() const { assert(m_ptr); return *m_ptr; }] *)
Definition operator_star (b : build) (p : UniquePtr) : outcome ptr :=
  match assert_ b (ptr_to_bool (m_ptr p)) with
  | Returns _ => deref (m_ptr p)
  | AssertionFailed => AssertionFailed
  | Undefined => Undefined
  end.

(** [pointer operator->() const { return m_ptr; }] *)
Definition operator_arrow (p : UniquePtr) : outcome ptr :=
  Returns (m_ptr p).

(** [void swap(UniquePtr& other)] *)
Definition swap (this other : loc) (s : gmap loc UniquePtr)
  : option (gmap loc UniquePtr) :=
  s1 ← swap_member m_allocator set_m_allocator this other s;
  s2 ← swap_member m_ptr set_m_ptr this other s1;
  swap_member m_allocated_memory set_m_allocated_memory this other s2.

(** [template <typename T> void swap(UniquePtr<T>& lhs, UniquePtr<T>& rhs)] *)
Definition swap_free (lhs rhs : loc) (s : gmap loc UniquePtr)
  : option (gmap loc UniquePtr) :=
  swap lhs rhs s.

(** [UniquePtr(UniquePtr&& other)]: the new object lives at [this]; its
    members are initialised to null and then exchanged with [other]. *)
Definition move_ctor (this other : loc) (s : gmap loc UniquePtr)
  : option (gmap loc UniquePtr) :=
  swap this other (<[this := mkUniquePtr nullptr nullptr nullptr]> s).

(** [static_cast<T*>(p)] for a [U*] where [T] is the base class that lies
    [delta] bytes into a [U]: the null pointer stays null, any other address
    is moved to the base subobject. *)
Definition static_cast_base (delta : Z) (p : ptr) : ptr :=
  if ptr_to_bool p then p + delta else nullptr.

(** [template <typename U, ...> UniquePtr(UniquePtr<U>&& other)]: the new
    object at [this] takes the allocator and the allocation of [other] as
    they are and its object pointer converted to [T*]; the members of [other]
    are then reset one by one. *)
Definition convert_ctor (delta : Z) (this other : loc)
  (s : gmap loc UniquePtr) : option (gmap loc UniquePtr) :=
  o ← s !! other;
  let s0 := <[this := mkUniquePtr (m_allocator o)
                                  (static_cast_base delta (m_ptr o))
                                  (m_allocated_memory o)]> s in
  s1 ← update other (set_m_allocator nullptr) s0;
  s2 ← update other (set_m_ptr nullptr) s1;
  update other (set_m_allocated_memory nullptr) s2.

(** No two variables hold the same allocation: of the variables whose
    pointer is true as a [bool], each has an allocation of its own. *)
Definition sole_owner (s : gmap loc UniquePtr) : Prop :=
  forall (l1 l2 : loc) (p1 p2 : UniquePtr),
    s !! l1 = Some p1 -> s !! l2 = Some p2 ->
    operator_bool p1 = true -> operator_bool p2 = true ->
    m_allocated_memory p1 = m_allocated_memory p2 -> l1 = l2.

Section Methods.
Context {World : Type} `{!IAllocator World} {T : Type} `{!ElemType T}.

(** [~UniquePtr()] *)
Definition dtor (p : UniquePtr) (h : Heap World T) : Heap World T :=
  if ptr_to_bool (m_ptr p) && ptr_to_bool (m_allocator p) then
    call_deallocate (m_allocator p) (m_allocated_memory p)
                    (destroy_at (m_ptr p) h)
  else h.

(** [UniquePtr& operator=(UniquePtr&& other)]:
    [UniquePtr(std::move(other)).swap( *this)].  The temporary lives at a
    location no variable uses and is destroyed at the end of the statement. *)
Definition operator_assign (this other : loc)
  (sh : gmap loc UniquePtr * Heap World T)
  : option (gmap loc UniquePtr * Heap World T) :=
  let '(s, h) := sh in
  let tmp := fresh (dom s) in
  s1 ← move_ctor tmp other s;
  s2 ← swap tmp this s1;
  t ← s2 !! tmp;
  Some (delete tmp s2, dtor t h).

(** [make_unique<T>(allocator, args...)]; [ctor] is the constructor of [T]
    the arguments select. *)
Definition make_unique {Args : Type} (ctor : Args -> T) (allocator : ptr)
  (args : Args) (h : Heap World T) : UniquePtr * Heap World T :=
  if negb (ptr_to_bool allocator) then (UniquePtr_default, h)
  else
    let '(memory, h1) := call_allocate allocator (sizeof T) (alignof T) h in
    if negb (ptr_to_bool memory) then (UniquePtr_default, h1)
    else
      let '(object, h2) := placement_new memory (ctor args) h1 in
      (UniquePtr_ctor allocator object memory, h2).
End Methods.

Section Reachable.
Context {World : Type} `{!IAllocator World} {T : Type} `{!ElemType T}.

(** The stores of scalar pointers a program can reach when it builds them
    with the default and [nullptr] constructors and [make_unique] and acts on
    live variables with the move constructor, the converting move
    constructor, move assignment, [swap] and the end of a variable's scope.
    The base subobject of an object is never at the null address. *)
Inductive reachable : gmap loc UniquePtr -> Prop :=
| reach_empty : reachable ∅
| reach_default l s :
    reachable s -> s !! l = None -> reachable (<[l := UniquePtr_default]> s)
| reach_nullptr l s :
    reachable s -> s !! l = None -> reachable (<[l := UniquePtr_nullptr]> s)
| reach_make_unique l s (Args : Type) (ctor : Args -> T) allocator args
    (h : Heap World T) :
    reachable s -> s !! l = None ->
    reachable (<[l := fst (make_unique ctor allocator args h)]> s)
| reach_move_ctor this other s s' :
    reachable s -> s !! this = None -> is_Some (s !! other) ->
    move_ctor this other s = Some s' -> reachable s'
| reach_convert_ctor delta this other o s s' :
    reachable s -> s !! this = None -> s !! other = Some o ->
    (m_ptr o <> nullptr -> m_ptr o + delta <> nullptr) ->
    convert_ctor delta this other s = Some s' -> reachable s'
| reach_operator_assign this other s (h : Heap World T) s' h' :
    reachable s -> is_Some (s !! this) -> is_Some (s !! other) ->
    operator_assign this other (s, h) = Some (s', h') -> reachable s'
| reach_swap this other s s' :
    reachable s -> swap this other s = Some s' -> reachable s'
| reach_scope_exit l s :
    reachable s -> reachable (delete l s).
End Reachable.

(** The three members are null together or set together. *)
Definition well_formed (p : UniquePtr) : Prop :=
  p = UniquePtr_default
  \/ (m_allocator p <> nullptr /\ m_ptr p <> nullptr
      /\ m_allocated_memory p <> nullptr).

End Scalar.

(** ** unique_ptr.h: [UniquePtr<T[]>] *)

Module Arr.

Record UniquePtr : Type := mkUniquePtr {
  m_allocator : ptr;
  m_ptr : ptr;
  m_allocated_memory : ptr;
  m_length : Z
}.

Definition set_m_allocator (v : ptr) (p : UniquePtr) : UniquePtr :=
  mkUniquePtr v (m_ptr p) (m_allocated_memory p) (m_length p).
Definition set_m_ptr (v : ptr) (p : UniquePtr) : UniquePtr :=
  mkUniquePtr (m_allocator p) v (m_allocated_memory p) (m_length p).
Definition set_m_allocated_memory (v : ptr) (p : UniquePtr) : UniquePtr :=
  mkUniquePtr (m_allocator p) (m_ptr p) v (m_length p).
Definition set_m_length (v : Z) (p : UniquePtr) : UniquePtr :=
  mkUniquePtr (m_allocator p) (m_ptr p) (m_allocated_memory p) v.

(** [constexpr UniquePtr()] *)
Definition UniquePtr_default : UniquePtr := mkUniquePtr nullptr nullptr nullptr 0.

(** [constexpr UniquePtr(std::nullptr_t)] *)
Definition UniquePtr_nullptr : UniquePtr := UniquePtr_default.

(** [UniquePtr(IAllocator* allocator, pointer ptr, void* allocated_memory,
    size_t length)] *)
Definition UniquePtr_ctor (allocator p allocated_memory : ptr) (length : Z)
  : UniquePtr :=
  mkUniquePtr allocator p allocated_memory length.

Definition get (p : UniquePtr) : ptr := m_ptr p.

Definition length (p : UniquePtr) : Z := m_length p.

(** [explicit operator bool() const { return !!m_ptr; }] *)
Definition operator_bool (p : UniquePtr) : bool :=
  negb (negb (ptr_to_bool (m_ptr p))).

(** [UniquePtr(UniquePtr&& other)]: the new object at [this] copies the four
    members of [other], which are then reset one by one. *)
Definition move_ctor (this other : loc) (s : gmap loc UniquePtr)
  : option (gmap loc UniquePtr) :=
  o ← s !! other;
  let s0 := <[this := mkUniquePtr (m_allocator o) (m_ptr o)
                                  (m_allocated_memory o) (m_length o)]> s in
  s1 ← update other (set_m_allocator nullptr) s0;
  s2 ← update other (set_m_ptr nullptr) s1;
  s3 ← update other (set_m_allocated_memory nullptr) s2;
  update other (set_m_length 0) s3.

(** [void swap(UniquePtr& other)] *)
Definition swap (this other : loc) (s : gmap loc UniquePtr)
  : option (gmap loc UniquePtr) :=
  s1 ← swap_member m_allocator set_m_allocator this other s;
  s2 ← swap_member m_ptr set_m_ptr this other s1;
  s3 ← swap_member m_allocated_memory set_m_allocated_memory this other s2;
  swap_member m_length set_m_length this other s3.

Section Methods.
Context {World : Type} `{!IAllocator World} {T : Type} `{!ElemType T}.
Variable size_bits : Z.

(** [~UniquePtr()] *)
Definition dtor (p : UniquePtr) (h : Heap World T) : Heap World T :=
  if ptr_to_bool (m_ptr p) && ptr_to_bool (m_allocator p) then
    call_deallocate (m_allocator p) (m_allocated_memory p)
                    (destroy (m_ptr p) (m_length p) h)
  else h.

(** [m_ptr[index]]: the element [index] strides after [m_ptr]; there is no
    element to name when [m_ptr] is null. *)
Definition subscript (p : ptr) (index : Z) : outcome ptr :=
  if ptr_to_bool p then Returns (p + index * sizeof T) else Undefined.

(** [T& operator[](size_t index)] and its [const] overload, which has the
    same body: [assert(m_ptr); assert(index < m_length); return m_ptr[index];] *)
Definition operator_index (b : build) (p : UniquePtr) (index : Z)
  : outcome ptr :=
  match assert_ b (ptr_to_bool (m_ptr p)) with
  | Returns _ =>
      match assert_ b (index <? m_length p) with
      | Returns _ => subscript (m_ptr p) index
      | AssertionFailed => AssertionFailed
      | Undefined => Undefined
      end
  | AssertionFailed => AssertionFailed
  | Undefined => Undefined
  end.

(** [UniquePtr& operator=(UniquePtr&& other)]:
    [UniquePtr(std::move(other)).swap( *this)]. *)
Definition operator_assign (this other : loc)
  (sh : gmap loc UniquePtr * Heap World T)
  : option (gmap loc UniquePtr * Heap World T) :=
  let '(s, h) := sh in
  let tmp := fresh (dom s) in
  s1 ← move_ctor tmp other s;
  s2 ← swap tmp this s1;
  t ← s2 !! tmp;
  Some (delete tmp s2, dtor t h).

(** [make_unique<T[]>(allocator, length)]; [dflt] is what value-initialising
    an element of type [T] produces. *)
Definition make_unique (dflt : T) (allocator : ptr) (length : Z)
  (h : Heap World T) : UniquePtr * Heap World T :=
  if negb (ptr_to_bool allocator) then (UniquePtr_default, h)
  else
    let '(memory, h1) :=
      call_allocate allocator (wrap size_bits (sizeof T * length)) (alignof T) h in
    if negb (ptr_to_bool memory) then (UniquePtr_default, h1)
    else
      let '(p, h2) := placement_new_array memory length dflt h1 in
      (UniquePtr_ctor allocator p memory length, h2).

End Methods.

Section Reachable.
Context {World : Type} `{!IAllocator World} {T : Type} `{!ElemType T}.
Variable size_bits : Z.
Variable min_length : Z.

(** The stores of array pointers a program can reach when it builds them only
    with the default and [nullptr] constructors and [make_unique], and acts
    on them only with the move constructor, move assignment, [swap] and the
    end of a variable's scope.  [min_length] is the least length the program
    passes to [make_unique]: [0] when it may ask for an array of no elements. *)
Inductive reachable : gmap loc UniquePtr -> Prop :=
| reach_empty : reachable ∅
| reach_default l s :
    reachable s -> s !! l = None -> reachable (<[l := UniquePtr_default]> s)
| reach_nullptr l s :
    reachable s -> s !! l = None -> reachable (<[l := UniquePtr_nullptr]> s)
| reach_make_unique l s (dflt : T) allocator n (h : Heap World T) :
    reachable s -> s !! l = None -> min_length <= n < 2 ^ size_bits ->
    reachable (<[l := fst (make_unique size_bits dflt allocator n h)]> s)
| reach_move_ctor this other s s' :
    reachable s -> s !! this = None -> move_ctor this other s = Some s' ->
    reachable s'
| reach_operator_assign this other s (h : Heap World T) s' h' :
    reachable s -> is_Some (s !! this) ->
    operator_assign this other (s, h) = Some (s', h') ->
    reachable s'
| reach_swap this other s s' :
    reachable s -> swap this other s = Some s' -> reachable s'
| reach_scope_exit l s :
    reachable s -> reachable (delete l s).
End Reachable.

(** What every reachable array pointer satisfies: it is the empty pointer, or
    its object pointer and its allocation are both set and its length is one
    that [make_unique] was given. *)
Definition well_formed (min_length : Z) (p : UniquePtr) : Prop :=
  p = UniquePtr_default
  \/ (m_ptr p <> nullptr /\ m_allocated_memory p <> nullptr
      /\ min_length <= m_length p).

End Arr.

(** ** tests/stl_allocator_test.cpp: [DummyAllocator]

    The allocator of the adapter's tests derives from [DefaultAllocator] and
    keeps the addresses it has handed out in the vector [m_allocations].  The
    base class stands for any allocator here. *)

Module Dummy.

Record World (Base : Type) : Type := mkWorld {
  base : Base;
  m_allocations : list ptr
}.
Arguments mkWorld {Base}.
Arguments base {Base}.
Arguments m_allocations {Base}.

(** [std::find(first, last, p)], as the index of the first element equal to
    [p]; [None] stands for the end iterator. *)
Fixpoint std_find (p : ptr) (l : list ptr) : option nat :=
  match l with
  | [] => None
  | x :: l' => if x =? p then Some O else S <$> std_find p l'
  end.

Section Methods.
Context {Base : Type} `{!IAllocator Base}.

(** [void* allocate(std::size_t size, std::size_t alignment) override] *)
Definition dummy_allocate (self : ptr) (size alignment : Z) (w : World Base)
  : ptr * World Base :=
  let '(p, b) := allocate self size alignment (base w) in
  (p, mkWorld b (m_allocations w ++ [p])).

(** [void deallocate(void* ptr) override] *)
Definition dummy_deallocate (self p : ptr) (w : World Base) : World Base :=
  match std_find p (m_allocations w) with
  | Some it => mkWorld (deallocate self p (base w)) (delete it (m_allocations w))
  | None => w
  end.

Definition dummy : IAllocator (World Base) :=
  {| allocate := dummy_allocate; deallocate := dummy_deallocate |}.
End Methods.

End Dummy.

(** ** An allocator to run the library on

    A bump allocator over a budget of bytes.  A request that fits returns the
    next free address (also for a request of zero bytes, as [malloc] of the C
    library may) and one that does not fit returns null. *)

Module Bump.

Record World : Type := mkWorld {
  next : Z;
  budget : Z
}.

Definition bump_allocate (self : ptr) (size alignment : Z) (w : World)
  : ptr * World :=
  if size <=? budget w
  then (next w, mkWorld (next w + Z.max size 1) (budget w - size))
  else (nullptr, w).

Definition bump_deallocate (self p : ptr) (w : World) : World := w.

#[global] Instance bump : IAllocator World :=
  {| allocate := bump_allocate; deallocate := bump_deallocate |}.

(** A four-byte element type, such as [int]. *)
#[global] Instance int_elem : ElemType Z := {| sizeof := 4; alignof := 4 |}.

Definition heap0 (budget : Z) : Heap World Z :=
  mkHeap (mkWorld 4096 budget) ∅ [].

End Bump.

(** * Properties *)

(** ** The model runs

    The library on the bump allocator, with [int] elements. *)

Example make_unique_runs :
  Scalar.make_unique (fun v : Z => v) 16 42 (Bump.heap0 100)
  = (Scalar.mkUniquePtr 16 4096 4096,
     mkHeap (Bump.mkWorld 4100 96) {[4096 := 42]}
            [EvAllocate 16 4 4 4096; EvConstruct 4096]).
Proof. vm_compute. reflexivity. Qed.

Example make_unique_array_runs :
  Arr.make_unique 64 0 16 3 (Bump.heap0 100)
  = (Arr.mkUniquePtr 16 4096 4096 3,
     mkHeap (Bump.mkWorld 4108 88) {[4096 := 0; 4100 := 0; 4104 := 0]}
            [EvAllocate 16 12 4 4096; EvConstruct 4096; EvConstruct 4100;
             EvConstruct 4104]).
Proof. vm_compute. reflexivity. Qed.

Example array_lifetime_runs :
  let '(p, h) := Arr.make_unique 64 0 16 3 (Bump.heap0 100) in
  Arr.dtor p h
  = mkHeap (Bump.mkWorld 4108 88) ∅
           [EvAllocate 16 12 4 4096; EvConstruct 4096; EvConstruct 4100;
            EvConstruct 4104; EvDestroy 4096; EvDestroy 4100; EvDestroy 4104;
            EvDeallocate 16 4096].
Proof. vm_compute. reflexivity. Qed.

Example move_assign_runs :
  Scalar.operator_assign 2%nat 1%nat
    ({[1%nat := Scalar.mkUniquePtr 16 4096 4096;
       2%nat := Scalar.mkUniquePtr 16 5000 5000]}, Bump.heap0 100)
  = Some ({[1%nat := Scalar.UniquePtr_default;
            2%nat := Scalar.mkUniquePtr 16 4096 4096]},
          mkHeap (Bump.mkWorld 4096 100) ∅
                 [EvDestroy 5000; EvDeallocate 16 5000]).
Proof. vm_compute. reflexivity. Qed.

Example array_move_ctor_runs :
  Arr.move_ctor 2%nat 1%nat {[1%nat := Arr.mkUniquePtr 16 4096 4096 3]}
  = Some {[1%nat := Arr.UniquePtr_default;
           2%nat := Arr.mkUniquePtr 16 4096 4096 3]}.
Proof. vm_compute. reflexivity. Qed.

Example stl_allocate_runs :
  Stl.allocate 64 (Stl.StlAllocator_ctor 16 : Stl.StlAllocator Z) 10
    (Bump.heap0 100)
  = (4096, mkHeap (Bump.mkWorld 4136 60) ∅ [EvAllocate 16 40 4 4096])
  /\ Stl.allocate 64 (Stl.StlAllocator_ctor 16 : Stl.StlAllocator Z) 0
       (Bump.heap0 100)
     = (nullptr, Bump.heap0 100).
Proof. split; vm_compute; reflexivity. Qed.

Example operator_star_runs :
  Scalar.operator_star Debug (Scalar.mkUniquePtr 16 4096 4096) = Returns 4096
  /\ Scalar.operator_star Debug Scalar.UniquePtr_default = AssertionFailed
  /\ Scalar.operator_star Release Scalar.UniquePtr_default = Undefined
  /\ Scalar.operator_arrow Scalar.UniquePtr_default = Returns nullptr.
Proof. repeat split. Qed.

(** ** Pointers and machine arithmetic *)

Lemma ptr_to_bool_true (p : ptr) : ptr_to_bool p = true <-> p <> nullptr.
Proof.
  unfold ptr_to_bool, nullptr. destruct (Z.eqb_spec p 0); simpl; split;
    intros; congruence.
Qed.

Lemma ptr_to_bool_false (p : ptr) : ptr_to_bool p = false <-> p = nullptr.
Proof.
  unfold ptr_to_bool, nullptr. destruct (Z.eqb_spec p 0); simpl; split;
    intros; congruence.
Qed.

Lemma wrap_zero (size_bits : Z) : wrap size_bits 0 = 0.
Proof. unfold wrap. apply Zmod_0_l. Qed.

Lemma wrap_overflow (size_bits x : Z) :
  2 ^ size_bits <= x -> 0 < 2 ^ size_bits ->
  0 <= wrap size_bits x < 2 ^ size_bits /\ wrap size_bits x < x.
Proof.
  intros Hx Hpos. unfold wrap.
  pose proof (Z.mod_pos_bound x (2 ^ size_bits) Hpos). lia.
Qed.

(** ** The container adapter *)

Section StlProps.
Context {World : Type} `{!IAllocator World} {T : Type} `{!ElemType T}.
Variable size_bits : Z.

(** C8: two adapters compare equal with [operator==] exactly when they hold
    the same [IAllocator] pointer, also when one or both were obtained by
    rebinding from another element type (rebinding keeps the pointer), and
    [operator!=] is the negation of [operator==]. *)
Theorem stl_allocator_equality {U : Type}
  (a b : Stl.StlAllocator T) (c d : Stl.StlAllocator U) :
  (Stl.operator_eq a b = true <-> Stl.get_allocator a = Stl.get_allocator b)
  /\ Stl.operator_ne a b = negb (Stl.operator_eq a b)
  /\ Stl.get_allocator (Stl.StlAllocator_rebind c : Stl.StlAllocator T)
     = Stl.get_allocator c
  /\ (Stl.operator_eq a (Stl.StlAllocator_rebind c) = true
      <-> Stl.get_allocator a = Stl.get_allocator c)
  /\ (Stl.operator_eq (Stl.StlAllocator_rebind c : Stl.StlAllocator T)
                      (Stl.StlAllocator_rebind d) = true
      <-> Stl.get_allocator c = Stl.get_allocator d).
Proof.
  unfold Stl.operator_ne, Stl.operator_eq, Stl.StlAllocator_rebind,
    Stl.get_allocator; simpl.
  repeat split; try apply Z.eqb_eq; try (intros ->; apply Z.eqb_refl).
Qed.

(** C10: for [0 < n] the adapter asks the underlying allocator for
    [n * sizeof(T)] bytes computed modulo [2 ^ size_bits]; when the product
    exceeds the largest [size_t] the size that reaches the allocator is
    smaller than the [n * sizeof(T)] bytes that [n] elements need. *)
Theorem stl_allocate_wraps (a : Stl.StlAllocator T) (n : Z) (h : Heap World T) :
  0 < n < 2 ^ size_bits ->
  2 ^ size_bits - 1 < n * sizeof T ->
  let requested := (n * sizeof T) mod 2 ^ size_bits in
  let r := allocate (Stl.m_allocator a) requested (alignof T) (world h) in
  Stl.allocate size_bits a n h
  = (fst r, mkHeap (snd r) (objects h)
              (trace h ++ [EvAllocate (Stl.m_allocator a) requested (alignof T)
                                      (fst r)]))
  /\ 0 <= requested < 2 ^ size_bits
  /\ requested < n * sizeof T.
Proof.
  intros Hn Hov requested r.
  assert (Hpos : 0 < 2 ^ size_bits) by lia.
  destruct (wrap_overflow size_bits (n * sizeof T)) as [Hr Hlt]; [lia | lia |].
  split; [| split; [exact Hr | exact Hlt]].
  unfold Stl.allocate, call_allocate.
  destruct (Z.eqb_spec n 0) as [-> | _]; [lia |].
  fold requested. unfold wrap. fold requested. subst r.
  destruct (allocate (Stl.m_allocator a) requested (alignof T) (world h)).
  reflexivity.
Qed.
End StlProps.

(** [2 ^ 62] four-byte elements on a 64-bit target: zero bytes are requested. *)
Lemma stl_allocate_wraps_witness :
  Stl.allocate 64 (Stl.StlAllocator_ctor 16) (2 ^ 62) (Bump.heap0 100)
  = (4096, mkHeap (Bump.mkWorld 4097 100) ∅ [EvAllocate 16 0 4 4096])
  /\ 0 <= 0 < 2 ^ 64 /\ 0 < 2 ^ 62 * 4.
Proof.
  assert (Hn : 0 < 2 ^ 62 < 2 ^ 64) by (vm_compute; split; reflexivity).
  assert (Hov : 2 ^ 64 - 1 < 2 ^ 62 * sizeof Z) by (vm_compute; reflexivity).
  exact (stl_allocate_wraps (T := Z) 64 (Stl.StlAllocator_ctor 16) (2 ^ 62)
           (Bump.heap0 100) Hn Hov).
Defined.

(** ** Traces *)

Lemma count_app (f : event -> bool) (t1 t2 : list event) :
  count f (t1 ++ t2) = (count f t1 + count f t2)%nat.
Proof. induction t1 as [| e t1 IH]; simpl; [reflexivity | rewrite IH; lia]. Qed.

Lemma count_destroy_map (l : list ptr) :
  count is_destroy (map EvDestroy l) = length l
  /\ count is_deallocate (map EvDestroy l) = O.
Proof.
  induction l as [| x l (IH1 & IH2)]; simpl; [auto |].
  rewrite IH1, IH2. auto.
Qed.

Lemma element_addrs_length (stride first : Z) (n : nat) :
  length (element_addrs stride first n) = n.
Proof.
  revert first. induction n as [| n IH]; intros first; simpl;
    [reflexivity | rewrite IH; reflexivity].
Qed.

Lemma element_addrs_lookup (stride first : Z) (n i : nat) :
  (i < n)%nat ->
  element_addrs stride first n !! i = Some (first + Z.of_nat i * stride).
Proof.
  revert first i. induction n as [| n IH]; intros first i Hi; [lia |].
  destruct i as [| i]; simpl.
  - f_equal. lia.
  - rewrite IH by lia. f_equal. lia.
Qed.

Section HeapProps.
Context {World : Type} `{!IAllocator World} {T : Type} `{!ElemType T}.

Lemma destroy_n_trace (n : nat) (first : ptr) (h : Heap World T) :
  trace (destroy_n first n h)
  = trace h ++ map EvDestroy (element_addrs (sizeof T) first n)
  /\ world (destroy_n first n h) = world h.
Proof.
  revert first h. induction n as [| n IH]; intros first h; simpl.
  - rewrite app_nil_r. auto.
  - destruct (IH (first + sizeof T) (destroy_at first h)) as [Ht Hw].
    rewrite Ht, Hw. simpl. rewrite <- app_assoc. auto.
Qed.

(** The scalar destructor: nothing for a pointer that holds no object or no
    allocator, otherwise one destructor call and then one [deallocate]. *)
Lemma scalar_dtor_trace (p : Scalar.UniquePtr) (h : Heap World T) :
  (Scalar.m_ptr p = nullptr \/ Scalar.m_allocator p = nullptr ->
   Scalar.dtor p h = h)
  /\ (Scalar.m_ptr p <> nullptr -> Scalar.m_allocator p <> nullptr ->
      Scalar.dtor p h
      = mkHeap (deallocate (Scalar.m_allocator p) (Scalar.m_allocated_memory p)
                           (world h))
               (delete (Scalar.m_ptr p) (objects h))
               (trace h ++ [EvDestroy (Scalar.m_ptr p);
                            EvDeallocate (Scalar.m_allocator p)
                                         (Scalar.m_allocated_memory p)])).
Proof.
  unfold Scalar.dtor. split.
  - intros [H | H]; apply ptr_to_bool_false in H; rewrite H;
      [reflexivity | rewrite andb_false_r; reflexivity].
  - intros Hp Ha. apply ptr_to_bool_true in Hp, Ha. rewrite Hp, Ha. simpl.
    unfold call_deallocate, destroy_at. simpl. rewrite <- app_assoc.
    reflexivity.
Qed.
End HeapProps.

(** ** Destruction and construction *)

Section LifetimeProps.
Context {World : Type} `{!IAllocator World} {T : Type} `{!ElemType T}.
Variable size_bits : Z.

(** C1: destroying an array pointer that owns [N] elements (its object
    pointer and its allocator are not null) runs the element destructor on
    each of the [N] elements once, in one pass from the first element to the
    last, and after that calls [deallocate] of the recorded allocator once,
    on the recorded allocation. *)
Theorem array_dtor_destroys_then_deallocates
  (p : Arr.UniquePtr) (h : Heap World T) :
  Arr.m_ptr p <> nullptr -> Arr.m_allocator p <> nullptr ->
  0 <= Arr.m_length p ->
  let n := Z.to_nat (Arr.m_length p) in
  let addrs := element_addrs (sizeof T) (Arr.m_ptr p) n in
  let released := EvDeallocate (Arr.m_allocator p) (Arr.m_allocated_memory p) in
  trace (Arr.dtor p h) = trace h ++ map EvDestroy addrs ++ [released]
  /\ Z.of_nat (count is_destroy (map EvDestroy addrs ++ [released]))
     = Arr.m_length p
  /\ count is_deallocate (map EvDestroy addrs ++ [released]) = 1%nat
  /\ (forall i : nat, (i < n)%nat ->
        addrs !! i = Some (Arr.m_ptr p + Z.of_nat i * sizeof T))
  /\ world (Arr.dtor p h)
     = deallocate (Arr.m_allocator p) (Arr.m_allocated_memory p) (world h).
Proof.
  intros Hp Ha Hlen n addrs released.
  apply ptr_to_bool_true in Hp, Ha.
  unfold Arr.dtor. rewrite Hp, Ha. simpl.
  unfold call_deallocate, destroy. simpl.
  destruct (destroy_n_trace n (Arr.m_ptr p) h) as [Ht Hw].
  fold n. rewrite Ht, Hw, <- app_assoc.
  destruct (count_destroy_map addrs) as (Hd & Hf).
  rewrite !count_app, Hd, Hf. subst addrs.
  rewrite element_addrs_length. simpl.
  repeat split; try reflexivity; try lia.
  intros i Hi. apply element_addrs_lookup. exact Hi.
Qed.

(** C2: [make_unique<T>] returns an empty pointer (false as a [bool], [get()]
    null) and constructs nothing when the allocator argument is null or its
    [allocate(sizeof(T), alignof(T))] returns null; otherwise it returns a
    non-empty pointer to the one object it has constructed, with the supplied
    arguments, in the memory the allocator returned. *)
Theorem make_unique_scalar_spec {Args : Type} (ctor : Args -> T)
  (allocator : ptr) (args : Args) (h : Heap World T) :
  let r := allocate allocator (sizeof T) (alignof T) (world h) in
  let res := Scalar.make_unique ctor allocator args h in
  (allocator = nullptr \/ fst r = nullptr ->
     Scalar.operator_bool (fst res) = false
     /\ Scalar.get (fst res) = nullptr
     /\ fst res = Scalar.UniquePtr_default
     /\ objects (snd res) = objects h
     /\ count is_construct (trace (snd res)) = count is_construct (trace h))
  /\ (allocator = nullptr -> snd res = h)
  /\ (allocator <> nullptr -> fst r <> nullptr ->
        Scalar.operator_bool (fst res) = true
        /\ fst res = Scalar.UniquePtr_ctor allocator (fst r) (fst r)
        /\ objects (snd res) = <[Scalar.get (fst res) := ctor args]> (objects h)
        /\ trace (snd res)
           = trace h ++ [EvAllocate allocator (sizeof T) (alignof T) (fst r);
                         EvConstruct (Scalar.get (fst res))]
        /\ count is_construct (trace (snd res))
           = S (count is_construct (trace h))).
Proof.
  intros r res. subst res. unfold Scalar.make_unique, call_allocate.
  fold r. destruct r as [memory w] eqn:Er. simpl.
  destruct (ptr_to_bool allocator) eqn:Ha; simpl.
  - apply ptr_to_bool_true in Ha.
    destruct (ptr_to_bool memory) eqn:Hm; simpl.
    + apply ptr_to_bool_true in Hm.
      split; [intros [? | ?]; congruence |]. split; [congruence |].
      intros _ _. unfold Scalar.operator_bool. simpl.
      apply ptr_to_bool_true in Hm. rewrite Hm. simpl.
      rewrite <- app_assoc. simpl. rewrite !count_app. simpl.
      repeat split; try reflexivity. lia.
    + apply ptr_to_bool_false in Hm.
      split; [| split; congruence].
      intros _. rewrite count_app. simpl. repeat split; try reflexivity. lia.
  - apply ptr_to_bool_false in Ha.
    split; [| split; [reflexivity | congruence]].
    intros _. repeat split; reflexivity.
Qed.

(** C9: with a non-null allocator and length 0 the array [make_unique] still
    calls [allocate], with a size of zero bytes, and the pointer it returns
    is true as a [bool] exactly when that call returned a non-null address;
    [StlAllocator::allocate(0)] returns null and calls nothing. *)
Theorem make_unique_array_zero_length (dflt : T) (allocator : ptr)
  (h : Heap World T) (a : Stl.StlAllocator T) :
  allocator <> nullptr ->
  let r := allocate allocator 0 (alignof T) (world h) in
  let res := Arr.make_unique size_bits dflt allocator 0 h in
  trace (snd res) = trace h ++ [EvAllocate allocator 0 (alignof T) (fst r)]
  /\ world (snd res) = snd r
  /\ Arr.operator_bool (fst res) = ptr_to_bool (fst r)
  /\ Arr.length (fst res) = 0
  /\ Stl.allocate size_bits a 0 h = (nullptr, h).
Proof.
  intros Ha r res. subst res. apply ptr_to_bool_true in Ha.
  unfold Arr.make_unique, call_allocate. rewrite Ha. simpl.
  rewrite Z.mul_0_r, wrap_zero. fold r. destruct r as [memory w]. simpl.
  unfold Arr.operator_bool.
  destruct (ptr_to_bool memory) eqn:Hm; simpl.
  - rewrite Hm. repeat split; reflexivity.
  - repeat split; reflexivity.
Qed.
End LifetimeProps.

(** ** Dereference *)

(** C7: in a debug build [operator*] of an empty pointer stops at its
    assertion, but [operator->] of the same pointer contains no assertion:
    in every build it returns the null pointer to its caller. *)
Theorem operator_arrow_empty_returns_null (a m : ptr) :
  Scalar.operator_star Debug (Scalar.mkUniquePtr a nullptr m) = AssertionFailed
  /\ Scalar.operator_arrow (Scalar.mkUniquePtr a nullptr m) = Returns nullptr.
Proof. split; reflexivity. Qed.

(** Three [int] elements at 4096, owned through allocator 16. *)
Lemma array_dtor_witness :
  trace (Arr.dtor (Arr.mkUniquePtr 16 4096 4096 3) (Bump.heap0 100))
  = [EvDestroy 4096; EvDestroy 4100; EvDestroy 4104; EvDeallocate 16 4096].
Proof.
  assert (Hp : Arr.m_ptr (Arr.mkUniquePtr 16 4096 4096 3) <> nullptr)
    by (unfold nullptr; simpl; lia).
  assert (Ha : Arr.m_allocator (Arr.mkUniquePtr 16 4096 4096 3) <> nullptr)
    by (unfold nullptr; simpl; lia).
  assert (Hl : 0 <= Arr.m_length (Arr.mkUniquePtr 16 4096 4096 3))
    by (simpl; lia).
  exact (proj1 (array_dtor_destroys_then_deallocates
                  (Arr.mkUniquePtr 16 4096 4096 3) (Bump.heap0 100) Hp Ha Hl)).
Defined.

(** An allocator with room, one without, and no allocator at all. *)
Lemma make_unique_scalar_witness :
  Scalar.operator_bool
    (fst (Scalar.make_unique (fun v : Z => v) 16 42 (Bump.heap0 100))) = true
  /\ Scalar.operator_bool
       (fst (Scalar.make_unique (fun v : Z => v) 16 42 (Bump.heap0 0))) = false
  /\ Scalar.operator_bool
       (fst (Scalar.make_unique (fun v : Z => v) nullptr 42 (Bump.heap0 100)))
     = false.
Proof.
  pose proof (make_unique_scalar_spec (fun v : Z => v) 16 42 (Bump.heap0 100))
    as Hok.
  pose proof (make_unique_scalar_spec (fun v : Z => v) 16 42 (Bump.heap0 0))
    as Hfail.
  pose proof (make_unique_scalar_spec (fun v : Z => v) nullptr 42
                (Bump.heap0 100)) as Hnull.
  cbv zeta in Hok, Hfail, Hnull.
  destruct Hok as (_ & _ & Hok), Hfail as (Hfail & _), Hnull as (Hnull & _).
  split; [| split].
  - apply Hok; vm_compute; discriminate.
  - apply Hfail. right. reflexivity.
  - apply Hnull. left. reflexivity.
Defined.

(** The bump allocator answers a zero-byte request with an address. *)
Lemma make_unique_array_zero_length_witness :
  let res := Arr.make_unique 64 0 16 0 (Bump.heap0 100) in
  trace (snd res) = [EvAllocate 16 0 4 4096]
  /\ Arr.operator_bool (fst res) = true
  /\ Arr.length (fst res) = 0.
Proof.
  assert (Ha : 16 <> nullptr) by (unfold nullptr; lia).
  pose proof (make_unique_array_zero_length 64 0 16 (Bump.heap0 100)
                (Stl.StlAllocator_ctor 16) Ha) as W.
  cbv zeta in W. destruct W as (Ht & _ & Hb & Hl & _).
  intros res. split; [exact Ht | split; [exact Hb | exact Hl]].
Defined.

(** ** Moves and swap *)

Lemma fresh_loc_unused {P : Type} (s : gmap loc P) : s !! fresh (dom s) = None.
Proof. apply not_elem_of_dom. apply is_fresh. Qed.

Lemma scalar_swap_spec (a b : loc) (s : gmap loc Scalar.UniquePtr) :
  Scalar.swap a b s
  = (pa ← s !! a; pb ← s !! b; Some (<[b := pa]> (<[a := pb]> s))).
Proof.
  unfold Scalar.swap, swap_member, update.
  destruct (s !! a) as [[a1 a2 a3] |] eqn:Ha; [| reflexivity].
  destruct (s !! b) as [[b1 b2 b3] |] eqn:Hb; [| reflexivity].
  destruct (decide (a = b)) as [-> | Hne].
  - simplify_map_eq. f_equal. apply map_eq. intros i.
    destruct (decide (i = b)); simplify_map_eq; done.
  - simplify_map_eq. f_equal. apply map_eq. intros i.
    destruct (decide (i = b)); destruct (decide (i = a)); simplify_map_eq; done.
Qed.

Lemma arr_swap_spec (a b : loc) (s : gmap loc Arr.UniquePtr) :
  Arr.swap a b s
  = (pa ← s !! a; pb ← s !! b; Some (<[b := pa]> (<[a := pb]> s))).
Proof.
  unfold Arr.swap, swap_member, update.
  destruct (s !! a) as [[a1 a2 a3 a4] |] eqn:Ha; [| reflexivity].
  destruct (s !! b) as [[b1 b2 b3 b4] |] eqn:Hb; [| reflexivity].
  destruct (decide (a = b)) as [-> | Hne].
  - simplify_map_eq. f_equal. apply map_eq. intros i.
    destruct (decide (i = b)); simplify_map_eq; done.
  - simplify_map_eq. f_equal. apply map_eq. intros i.
    destruct (decide (i = b)); destruct (decide (i = a)); simplify_map_eq; done.
Qed.

Lemma scalar_move_ctor_spec (this other : loc) (s : gmap loc Scalar.UniquePtr)
  (p : Scalar.UniquePtr) :
  s !! this = None -> s !! other = Some p ->
  Scalar.move_ctor this other s
  = Some (<[other := Scalar.UniquePtr_default]> (<[this := p]> s)).
Proof.
  intros Hthis Hother. unfold Scalar.move_ctor. rewrite scalar_swap_spec.
  assert (Hne : this <> other) by congruence.
  rewrite lookup_insert_eq, lookup_insert_ne, Hother by exact Hne. simpl.
  rewrite insert_insert_eq. reflexivity.
Qed.

Lemma arr_move_ctor_spec (this other : loc) (s : gmap loc Arr.UniquePtr) :
  this <> other ->
  Arr.move_ctor this other s
  = (p ← s !! other;
     Some (<[other := Arr.UniquePtr_default]> (<[this := p]> s))).
Proof.
  intros Hne. unfold Arr.move_ctor, update.
  destruct (s !! other) as [[a1 a2 a3 a4] |] eqn:Ho; [| reflexivity].
  simplify_map_eq. f_equal. apply map_eq. intros i.
  destruct (decide (i = other)); destruct (decide (i = this));
    simplify_map_eq; done.
Qed.

Section Assign.
Context {World : Type} `{!IAllocator World} {T : Type} `{!ElemType T}.

Lemma scalar_operator_assign_spec (this other : loc)
  (s : gmap loc Scalar.UniquePtr) (h : Heap World T) (q p : Scalar.UniquePtr) :
  s !! this = Some q -> s !! other = Some p ->
  Scalar.operator_assign this other (s, h)
  = Some (if decide (this = other) then (s, h)
          else (<[this := p]> (<[other := Scalar.UniquePtr_default]> s),
                Scalar.dtor q h)).
Proof.
  intros Hthis Hother. unfold Scalar.operator_assign.
  pose proof (fresh_loc_unused s) as Hfresh.
  set (tmp := fresh (dom s)) in *.
  assert (Hto : tmp <> other) by congruence.
  assert (Htt : tmp <> this) by congruence.
  rewrite (scalar_move_ctor_spec tmp other s p Hfresh Hother). simpl.
  rewrite scalar_swap_spec. simplify_map_eq.
  destruct (decide (this = other)) as [-> | Hne]; simplify_map_eq.
  - f_equal. f_equal. apply map_eq. intros i.
    destruct (decide (i = other)); destruct (decide (i = tmp));
      simplify_map_eq; done.
  - f_equal. f_equal. apply map_eq. intros i.
    destruct (decide (i = other)); destruct (decide (i = tmp));
      destruct (decide (i = this)); simplify_map_eq; done.
Qed.

Lemma arr_operator_assign_spec (this other : loc)
  (s : gmap loc Arr.UniquePtr) (h : Heap World T) (q : Arr.UniquePtr) :
  s !! this = Some q ->
  Arr.operator_assign this other (s, h)
  = (p ← s !! other;
     Some (if decide (this = other) then (s, h)
           else (<[this := p]> (<[other := Arr.UniquePtr_default]> s),
                 Arr.dtor q h))).
Proof.
  intros Hthis. unfold Arr.operator_assign.
  pose proof (fresh_loc_unused s) as Hfresh.
  set (tmp := fresh (dom s)) in *.
  assert (Htt : tmp <> this) by congruence.
  destruct (decide (tmp = other)) as [Heq | Hto].
  - rewrite <- Heq. unfold Arr.move_ctor. rewrite Hfresh. reflexivity.
  - rewrite (arr_move_ctor_spec tmp other s Hto).
    destruct (s !! other) as [p |] eqn:Hother; [| reflexivity]. simpl.
    rewrite arr_swap_spec. simplify_map_eq.
    destruct (decide (this = other)) as [-> | Hne]; simplify_map_eq.
    + f_equal. f_equal. apply map_eq. intros i.
      destruct (decide (i = other)); destruct (decide (i = tmp));
        simplify_map_eq; done.
    + f_equal. f_equal. apply map_eq. intros i.
      destruct (decide (i = other)); destruct (decide (i = tmp));
        destruct (decide (i = this)); simplify_map_eq; done.
Qed.
End Assign.

Section MoveProps.
Context {World : Type} `{!IAllocator World} {T : Type} `{!ElemType T}.

(** C3: moving from a non-empty scalar pointer, by the move constructor into a
    new object or by move assignment into another existing object, leaves the
    source false as a [bool] with [get()] null, and the destination holds the
    allocator, object pointer and allocation the source had. *)
Theorem scalar_move_transfers (s : gmap loc Scalar.UniquePtr) (h : Heap World T)
  (other : loc) (p : Scalar.UniquePtr) :
  s !! other = Some p -> Scalar.operator_bool p = true ->
  (forall this : loc, s !! this = None ->
     exists s' d q,
       Scalar.move_ctor this other s = Some s'
       /\ s' !! this = Some d /\ d = p /\ Scalar.operator_bool d = true
       /\ s' !! other = Some q
       /\ Scalar.operator_bool q = false /\ Scalar.get q = nullptr
       /\ q = Scalar.UniquePtr_default)
  /\ (forall (this : loc) (q0 : Scalar.UniquePtr),
       this <> other -> s !! this = Some q0 ->
       exists s' h' d q,
         Scalar.operator_assign this other (s, h) = Some (s', h')
         /\ s' !! this = Some d /\ d = p /\ Scalar.operator_bool d = true
         /\ s' !! other = Some q
         /\ Scalar.operator_bool q = false /\ Scalar.get q = nullptr
         /\ q = Scalar.UniquePtr_default).
Proof.
  intros Hother Hp. split.
  - intros this Hthis. assert (Hne : this <> other) by congruence.
    rewrite (scalar_move_ctor_spec this other s p Hthis Hother).
    exists (<[other := Scalar.UniquePtr_default]> (<[this := p]> s)),
      p, Scalar.UniquePtr_default.
    rewrite lookup_insert_ne, !lookup_insert_eq by congruence.
    repeat split; try reflexivity. exact Hp.
  - intros this q0 Hne Hthis.
    rewrite (scalar_operator_assign_spec this other s h q0 p Hthis Hother).
    destruct (decide (this = other)) as [? | _]; [contradiction |].
    exists (<[this := p]> (<[other := Scalar.UniquePtr_default]> s)),
      (Scalar.dtor q0 h), p, Scalar.UniquePtr_default.
    rewrite lookup_insert_eq, lookup_insert_ne, lookup_insert_eq by congruence.
    repeat split; try reflexivity. exact Hp.
Qed.

(** C5: scalar move assignment leaves a pointer assigned to itself as it was
    and runs no destructor and no [deallocate]; assigned from another
    pointer it takes over that pointer's state, leaves the other empty, and
    what it owned before is destroyed once and deallocated once (nothing
    happens if it owned nothing).  [Scalar.operator_assign] is the source's
    temporary-then-swap sequence. *)
Theorem scalar_move_assign_spec (s : gmap loc Scalar.UniquePtr)
  (h : Heap World T) (this other : loc) (q p : Scalar.UniquePtr) :
  s !! this = Some q -> s !! other = Some p ->
  (this = other -> Scalar.operator_assign this other (s, h) = Some (s, h))
  /\ (this <> other ->
      exists h',
        Scalar.operator_assign this other (s, h)
        = Some (<[this := p]> (<[other := Scalar.UniquePtr_default]> s), h')
        /\ h' = Scalar.dtor q h
        /\ (Scalar.m_ptr q <> nullptr -> Scalar.m_allocator q <> nullptr ->
            trace h'
            = trace h ++ [EvDestroy (Scalar.m_ptr q);
                          EvDeallocate (Scalar.m_allocator q)
                                       (Scalar.m_allocated_memory q)]
            /\ count is_destroy (trace h') = S (count is_destroy (trace h))
            /\ count is_deallocate (trace h')
               = S (count is_deallocate (trace h))
            /\ world h'
               = deallocate (Scalar.m_allocator q)
                            (Scalar.m_allocated_memory q) (world h))
        /\ (Scalar.m_ptr q = nullptr \/ Scalar.m_allocator q = nullptr ->
            h' = h)).
Proof.
  intros Hthis Hother.
  rewrite (scalar_operator_assign_spec this other s h q p Hthis Hother).
  split.
  - intros Heq. destruct (decide (this = other)); [reflexivity | contradiction].
  - intros Hne. destruct (decide (this = other)) as [? | _]; [contradiction |].
    exists (Scalar.dtor q h).
    destruct (scalar_dtor_trace q h) as [Hnone Hsome].
    split; [reflexivity |]. split; [reflexivity |]. split.
    + intros Hq Ha. rewrite (Hsome Hq Ha). simpl. rewrite !count_app. simpl.
      repeat split; try reflexivity; lia.
    + exact Hnone.
Qed.
End MoveProps.

(** C6: [swap], as a member and as a free function, exchanges the complete
    states of two scalar pointers and touches no other variable: two
    non-empty pointers are both non-empty afterwards, each with the other's
    object, and a non-empty and an empty pointer trade places. *)
Theorem scalar_swap_exchanges (s : gmap loc Scalar.UniquePtr) (a b : loc)
  (pa pb : Scalar.UniquePtr) :
  s !! a = Some pa -> s !! b = Some pb ->
  exists s' qa qb,
    Scalar.swap a b s = Some s' /\ Scalar.swap_free a b s = Some s'
    /\ s' !! a = Some qa /\ s' !! b = Some qb
    /\ qa = pb /\ qb = pa
    /\ (forall l : loc, l <> a -> l <> b -> s' !! l = s !! l)
    /\ (Scalar.operator_bool pa = true -> Scalar.operator_bool pb = true ->
        Scalar.operator_bool qa = true /\ Scalar.operator_bool qb = true
        /\ Scalar.get qa = Scalar.get pb /\ Scalar.get qb = Scalar.get pa)
    /\ (Scalar.operator_bool pa = true -> Scalar.operator_bool pb = false ->
        Scalar.operator_bool qa = false /\ Scalar.operator_bool qb = true
        /\ Scalar.get qb = Scalar.get pa).
Proof.
  intros Ha Hb. unfold Scalar.swap_free. rewrite scalar_swap_spec, Ha, Hb.
  simpl. exists (<[b := pa]> (<[a := pb]> s)), pb, pa.
  split; [reflexivity |]. split; [reflexivity |]. split.
  { destruct (decide (a = b)) as [-> | Hne].
    - rewrite lookup_insert_eq. congruence.
    - rewrite lookup_insert_ne, lookup_insert_eq by congruence. reflexivity. }
  split; [apply lookup_insert_eq |].
  split; [reflexivity |]. split; [reflexivity |]. split.
  { intros l Hla Hlb. rewrite !lookup_insert_ne by congruence. reflexivity. }
  split; intros Hpa Hpb; repeat split; assumption || reflexivity.
Qed.

(** A variable holding a pointer to an object at 4096 is moved from, first
    into a new variable and then into a variable that holds another object. *)
Lemma scalar_move_transfers_witness :
  (exists s',
     Scalar.move_ctor 3%nat 1%nat {[1%nat := Scalar.mkUniquePtr 16 4096 4096]}
     = Some s'
     /\ s' !! 3%nat = Some (Scalar.mkUniquePtr 16 4096 4096)
     /\ s' !! 1%nat = Some Scalar.UniquePtr_default)
  /\ (exists s' h',
        Scalar.operator_assign 2%nat 1%nat
          ({[1%nat := Scalar.mkUniquePtr 16 4096 4096;
             2%nat := Scalar.mkUniquePtr 16 5000 5000]}, Bump.heap0 100)
        = Some (s', h')
        /\ s' !! 2%nat = Some (Scalar.mkUniquePtr 16 4096 4096)
        /\ s' !! 1%nat = Some Scalar.UniquePtr_default).
Proof.
  split.
  - assert (H1 : ({[1%nat := Scalar.mkUniquePtr 16 4096 4096]}
                    : gmap loc Scalar.UniquePtr) !! 1%nat
                 = Some (Scalar.mkUniquePtr 16 4096 4096))
      by (vm_compute; reflexivity).
    assert (H2 : Scalar.operator_bool (Scalar.mkUniquePtr 16 4096 4096) = true)
      by reflexivity.
    assert (H3 : ({[1%nat := Scalar.mkUniquePtr 16 4096 4096]}
                    : gmap loc Scalar.UniquePtr) !! 3%nat = None)
      by (vm_compute; reflexivity).
    destruct (proj1 (scalar_move_transfers _ (Bump.heap0 100) 1%nat _ H1 H2)
                    3%nat H3)
      as (s' & d & q & Hm & Hd & -> & _ & Hq & _ & _ & ->).
    exists s'. split; [exact Hm | split; [exact Hd | exact Hq]].
  - assert (H1 : ({[1%nat := Scalar.mkUniquePtr 16 4096 4096;
                    2%nat := Scalar.mkUniquePtr 16 5000 5000]}
                    : gmap loc Scalar.UniquePtr) !! 1%nat
                 = Some (Scalar.mkUniquePtr 16 4096 4096))
      by (vm_compute; reflexivity).
    assert (H2 : Scalar.operator_bool (Scalar.mkUniquePtr 16 4096 4096) = true)
      by reflexivity.
    assert (H3 : ({[1%nat := Scalar.mkUniquePtr 16 4096 4096;
                    2%nat := Scalar.mkUniquePtr 16 5000 5000]}
                    : gmap loc Scalar.UniquePtr) !! 2%nat
                 = Some (Scalar.mkUniquePtr 16 5000 5000))
      by (vm_compute; reflexivity).
    assert (Hne : 2%nat <> 1%nat) by lia.
    destruct (proj2 (scalar_move_transfers _ (Bump.heap0 100) 1%nat _ H1 H2)
                    2%nat _ Hne H3)
      as (s' & h' & d & q & Hm & Hd & -> & _ & Hq & _ & _ & ->).
    exists s', h'. split; [exact Hm | split; [exact Hd | exact Hq]].
Defined.

(** Self-assignment of variable 1, and assignment of variable 1 to variable 2
    whose own object at 5000 is then destroyed and its memory released. *)
Lemma scalar_move_assign_witness :
  Scalar.operator_assign 1%nat 1%nat
    ({[1%nat := Scalar.mkUniquePtr 16 4096 4096;
       2%nat := Scalar.mkUniquePtr 16 5000 5000]}, Bump.heap0 100)
  = Some ({[1%nat := Scalar.mkUniquePtr 16 4096 4096;
            2%nat := Scalar.mkUniquePtr 16 5000 5000]}, Bump.heap0 100)
  /\ exists h',
       Scalar.operator_assign 2%nat 1%nat
         ({[1%nat := Scalar.mkUniquePtr 16 4096 4096;
            2%nat := Scalar.mkUniquePtr 16 5000 5000]}, Bump.heap0 100)
       = Some (<[2%nat := Scalar.mkUniquePtr 16 4096 4096]>
                 (<[1%nat := Scalar.UniquePtr_default]>
                    {[1%nat := Scalar.mkUniquePtr 16 4096 4096;
                      2%nat := Scalar.mkUniquePtr 16 5000 5000]}), h')
       /\ trace h' = [EvDestroy 5000; EvDeallocate 16 5000].
Proof.
  assert (H1 : ({[1%nat := Scalar.mkUniquePtr 16 4096 4096;
                  2%nat := Scalar.mkUniquePtr 16 5000 5000]}
                  : gmap loc Scalar.UniquePtr) !! 1%nat
               = Some (Scalar.mkUniquePtr 16 4096 4096))
    by (vm_compute; reflexivity).
  assert (H2 : ({[1%nat := Scalar.mkUniquePtr 16 4096 4096;
                  2%nat := Scalar.mkUniquePtr 16 5000 5000]}
                  : gmap loc Scalar.UniquePtr) !! 2%nat
               = Some (Scalar.mkUniquePtr 16 5000 5000))
    by (vm_compute; reflexivity).
  split.
  - exact (proj1 (scalar_move_assign_spec _ (Bump.heap0 100) 1%nat 1%nat _ _
                    H1 H1) eq_refl).
  - assert (Hne : 2%nat <> 1%nat) by lia.
    destruct (proj2 (scalar_move_assign_spec _ (Bump.heap0 100) 2%nat 1%nat _ _
                       H2 H1) Hne) as (h' & Hm & _ & Hown & _).
    exists h'. split; [exact Hm |].
    apply Hown; unfold nullptr; simpl; lia.
Defined.

(** An owning pointer in variable 1 and an empty one in variable 2. *)
Lemma scalar_swap_exchanges_witness :
  exists s',
    Scalar.swap 1%nat 2%nat
      {[1%nat := Scalar.mkUniquePtr 16 4096 4096;
        2%nat := Scalar.UniquePtr_default]} = Some s'
    /\ s' !! 1%nat = Some Scalar.UniquePtr_default
    /\ s' !! 2%nat = Some (Scalar.mkUniquePtr 16 4096 4096).
Proof.
  assert (H1 : ({[1%nat := Scalar.mkUniquePtr 16 4096 4096;
                  2%nat := Scalar.UniquePtr_default]}
                  : gmap loc Scalar.UniquePtr) !! 1%nat
               = Some (Scalar.mkUniquePtr 16 4096 4096))
    by (vm_compute; reflexivity).
  assert (H2 : ({[1%nat := Scalar.mkUniquePtr 16 4096 4096;
                  2%nat := Scalar.UniquePtr_default]}
                  : gmap loc Scalar.UniquePtr) !! 2%nat
               = Some Scalar.UniquePtr_default)
    by (vm_compute; reflexivity).
  destruct (scalar_swap_exchanges _ 1%nat 2%nat _ _ H1 H2)
    as (s' & qa & qb & Hs & _ & Ha & Hb & -> & -> & _).
  exists s'. split; [exact Hs | split; [exact Ha | exact Hb]].
Defined.

(** ** The array pointer's invariant *)

Section ArrayInvariant.
Context {World : Type} `{!IAllocator World} {T : Type} `{!ElemType T}.
Variable size_bits : Z.
Variable min_length : Z.

Lemma arr_well_formed_default : Arr.well_formed min_length Arr.UniquePtr_default.
Proof. left. reflexivity. Qed.

Lemma arr_make_unique_well_formed (dflt : T) (allocator : ptr) (n : Z) (h : Heap World T) :
  min_length <= n ->
  Arr.well_formed min_length (fst (Arr.make_unique size_bits dflt allocator n h)).
Proof.
  intros Hn. unfold Arr.make_unique, call_allocate.
  destruct (ptr_to_bool allocator); simpl; [| apply arr_well_formed_default].
  destruct (allocate allocator _ _ _) as [memory w].
  destruct (ptr_to_bool memory) eqn:Hm; simpl; [| apply arr_well_formed_default].
  apply ptr_to_bool_true in Hm. right. simpl. auto.
Qed.

Lemma reachable_well_formed (s : gmap loc Arr.UniquePtr) :
  Arr.reachable size_bits min_length s ->
  map_Forall (fun _ p => Arr.well_formed min_length p) s.
Proof.
  induction 1 as [| l s _ IH _ | l s _ IH _ | l s dflt allocator n h _ IH _ Hn
                  | this other s s' _ IH Hthis Hmove
                  | this other s h s' h' _ IH [q Hq] Hassign
                  | this other s s' _ IH Hswap | l s _ IH].
  - apply map_Forall_empty.
  - apply map_Forall_insert_2; [apply arr_well_formed_default | exact IH].
  - apply map_Forall_insert_2; [apply arr_well_formed_default | exact IH].
  - apply map_Forall_insert_2; [apply arr_make_unique_well_formed; lia | exact IH].
  - destruct (decide (this = other)) as [<- | Hne].
    + unfold Arr.move_ctor in Hmove. rewrite Hthis in Hmove. discriminate.
    + rewrite arr_move_ctor_spec in Hmove by exact Hne.
      destruct (s !! other) as [p |] eqn:Ho; [| discriminate].
      injection Hmove as <-.
      apply map_Forall_insert_2; [apply arr_well_formed_default |].
      apply map_Forall_insert_2; [exact (IH other p Ho) | exact IH].
  - rewrite (arr_operator_assign_spec this other s h q Hq) in Hassign.
    destruct (s !! other) as [p |] eqn:Ho; [| discriminate].
    simpl in Hassign. destruct (decide (this = other)).
    + injection Hassign as <- _. exact IH.
    + injection Hassign as <- _.
      apply map_Forall_insert_2; [exact (IH other p Ho) |].
      apply map_Forall_insert_2; [apply arr_well_formed_default | exact IH].
  - rewrite arr_swap_spec in Hswap.
    destruct (s !! this) as [pa |] eqn:Ha; [| discriminate].
    destruct (s !! other) as [pb |] eqn:Hb; [| discriminate].
    injection Hswap as <-.
    apply map_Forall_insert_2; [exact (IH this pa Ha) |].
    apply map_Forall_insert_2; [exact (IH other pb Hb) | exact IH].
  - apply map_Forall_delete. exact IH.
Qed.

(** C4: for every array pointer reachable through default and
    [nullptr] construction, [make_unique], moves and [swap], the object
    pointer is null exactly when the allocation is null, and then
    [length()] is 0; [length() == 0] in turn implies that both are null when
    [make_unique] is never given the length 0; and after a move-out the
    source is fully null with length 0 while the new object holds what the
    source held. *)
Theorem array_length_invariant (s : gmap loc Arr.UniquePtr) (l : loc)
  (p : Arr.UniquePtr) :
  Arr.reachable size_bits min_length s -> s !! l = Some p ->
  (Arr.get p = nullptr <-> Arr.m_allocated_memory p = nullptr)
  /\ (Arr.get p = nullptr -> Arr.length p = 0)
  /\ (0 < min_length ->
      (Arr.length p = 0
       <-> Arr.get p = nullptr /\ Arr.m_allocated_memory p = nullptr))
  /\ (forall this : loc, s !! this = None ->
      exists s', Arr.move_ctor this l s = Some s'
        /\ s' !! this = Some p
        /\ s' !! l = Some (Arr.mkUniquePtr nullptr nullptr nullptr 0)).
Proof.
  intros Hreach Hl.
  pose proof (reachable_well_formed s Hreach l p Hl) as Hok.
  unfold Arr.get, Arr.length.
  split; [| split; [| split]].
  - destruct Hok as [-> | (Hp & Hm & _)]; simpl; [tauto |]. split; congruence.
  - destruct Hok as [-> | (Hp & _)]; simpl; [reflexivity | congruence].
  - intros Hpos. destruct Hok as [-> | (Hp & Hm & Hlen)]; simpl; [tauto |].
    split; [lia | intros [? _]; congruence].
  - intros this Hthis. assert (Hne : this <> l) by congruence.
    rewrite arr_move_ctor_spec, Hl by exact Hne. simpl. eexists. split; [reflexivity |].
    rewrite lookup_insert_ne, lookup_insert_eq, lookup_insert_eq by congruence.
    split; reflexivity.
Qed.
End ArrayInvariant.


(** [make_unique<int[]>(allocator, 0)] on an allocator that answers a request
    of zero bytes with an address: length 0, pointer and allocation not null. *)
Lemma array_length_invariant_fails :
  Arr.reachable (World := Bump.World) (T := Z) 64 0
    {[1%nat := fst (Arr.make_unique 64 0 16 0 (Bump.heap0 100))]}
  /\ exists p : Arr.UniquePtr,
       ({[1%nat := fst (Arr.make_unique 64 0 16 0 (Bump.heap0 100))]}
          : gmap loc Arr.UniquePtr) !! 1%nat = Some p
       /\ ~ (Arr.length p = 0
             <-> Arr.get p = nullptr /\ Arr.m_allocated_memory p = nullptr).
Proof.
  split.
  - apply (Arr.reach_make_unique 64 0 1%nat ∅ 0 16 0 (Bump.heap0 100)).
    + apply Arr.reach_empty.
    + apply lookup_empty.
    + vm_compute. split; [discriminate | reflexivity].
  - eexists. split; [apply lookup_singleton_eq |].
    intros [Hnull _]. specialize (Hnull eq_refl) as [Hp _].
    vm_compute in Hp. discriminate.
Qed.

(** Three elements from the bump allocator, in a program that never asks for
    an array of no elements. *)
Lemma array_length_invariant_witness :
  let p := Arr.mkUniquePtr 16 4096 4096 3 in
  (Arr.get p = nullptr <-> Arr.m_allocated_memory p = nullptr)
  /\ (Arr.length p = 0
      <-> Arr.get p = nullptr /\ Arr.m_allocated_memory p = nullptr).
Proof.
  assert (Hr : Arr.reachable (World := Bump.World) (T := Z) 64 1
                 {[1%nat := fst (Arr.make_unique 64 0 16 3 (Bump.heap0 100))]}).
  { apply (Arr.reach_make_unique 64 1 1%nat ∅ 0 16 3 (Bump.heap0 100)).
    - apply Arr.reach_empty.
    - apply lookup_empty.
    - vm_compute. split; [discriminate | reflexivity]. }
  assert (Hl : ({[1%nat := fst (Arr.make_unique 64 0 16 3 (Bump.heap0 100))]}
                  : gmap loc Arr.UniquePtr) !! 1%nat
               = Some (Arr.mkUniquePtr 16 4096 4096 3))
    by (vm_compute; reflexivity).
  pose proof (array_length_invariant 64 1 _ 1%nat _ Hr Hl) as (H1 & _ & H3 & _).
  intros p. split; [exact H1 | apply H3; lia].
Defined.

(** * Further properties *)

(** ** Lifetimes: from [make_unique] to the destructor *)

Section LifetimeExtras.
Context {World : Type} `{!IAllocator World} {T : Type} `{!ElemType T}.
Variable size_bits : Z.

Lemma construct_n_heap (n : nat) (first : ptr) (v : T) (h : Heap World T) :
  trace (construct_n first n v h)
  = trace h ++ map EvConstruct (element_addrs (sizeof T) first n)
  /\ world (construct_n first n v h) = world h.
Proof.
  revert first h. induction n as [| n IH]; intros first h; simpl.
  - rewrite app_nil_r. auto.
  - destruct (IH (first + sizeof T)
                 (mkHeap (world h) (<[first := v]> (objects h))
                         (trace h ++ [EvConstruct first]))) as [Ht Hw].
    rewrite Ht, Hw. simpl. rewrite <- app_assoc. auto.
Qed.

Lemma construct_n_keeps (n : nat) (first : ptr) (v : T) (h : Heap World T)
  (a : Z) :
  objects h !! a = Some v -> objects (construct_n first n v h) !! a = Some v.
Proof.
  revert first h. induction n as [| n IH]; intros first h Ha; simpl;
    [exact Ha |].
  apply IH. simpl. destruct (decide (first = a)) as [-> | Hne].
  - apply lookup_insert_eq.
  - rewrite lookup_insert_ne by exact Hne. exact Ha.
Qed.

Lemma construct_n_elements (n : nat) (first : ptr) (v : T) (h : Heap World T)
  (i : nat) :
  (i < n)%nat ->
  objects (construct_n first n v h) !! (first + Z.of_nat i * sizeof T) = Some v.
Proof.
  revert first h i. induction n as [| n IH]; intros first h i Hi; [lia |].
  simpl. destruct i as [| i].
  - apply construct_n_keeps. simpl.
    replace (first + Z.of_nat 0 * sizeof T) with first by lia.
    apply lookup_insert_eq.
  - replace (first + Z.of_nat (S i) * sizeof T)
      with (first + sizeof T + Z.of_nat i * sizeof T) by lia.
    apply IH. lia.
Qed.

Lemma destroy_n_keeps_dead (n : nat) (first : ptr) (h : Heap World T) (a : Z) :
  objects h !! a = None -> objects (destroy_n first n h) !! a = None.
Proof.
  revert first h. induction n as [| n IH]; intros first h Ha; simpl;
    [exact Ha |].
  apply IH. simpl. apply lookup_delete_None. right. exact Ha.
Qed.

Lemma destroy_n_elements (n : nat) (first : ptr) (h : Heap World T) (i : nat) :
  (i < n)%nat ->
  objects (destroy_n first n h) !! (first + Z.of_nat i * sizeof T) = None.
Proof.
  revert first h i. induction n as [| n IH]; intros first h i Hi; [lia |].
  simpl. destruct i as [| i].
  - apply destroy_n_keeps_dead. simpl.
    replace (first + Z.of_nat 0 * sizeof T) with first by lia.
    apply lookup_delete_eq.
  - replace (first + Z.of_nat (S i) * sizeof T)
      with (first + sizeof T + Z.of_nat i * sizeof T) by lia.
    apply IH. lia.
Qed.

Lemma wrap_small (x : Z) : 0 <= x < 2 ^ size_bits -> wrap size_bits x = x.
Proof. intros Hx. unfold wrap. apply Z.mod_small. exact Hx. Qed.

(** X1: a scalar pointer made by [make_unique] and then destroyed: when the
    allocation succeeded the four calls are allocate, construct, destroy and
    deallocate, the last on the allocator and the address of the first, and
    the object is dead again; when it did not, the destructor calls nothing. *)
Theorem scalar_lifetime_roundtrip {Args : Type} (ctor : Args -> T)
  (allocator : ptr) (args : Args) (h : Heap World T) :
  let r := allocate allocator (sizeof T) (alignof T) (world h) in
  let res := Scalar.make_unique ctor allocator args h in
  let h' := Scalar.dtor (fst res) (snd res) in
  (allocator <> nullptr -> fst r <> nullptr ->
     trace h'
     = trace h ++ [EvAllocate allocator (sizeof T) (alignof T) (fst r);
                   EvConstruct (fst r); EvDestroy (fst r);
                   EvDeallocate allocator (fst r)]
     /\ objects h' = delete (fst r) (objects h)
     /\ world h' = deallocate allocator (fst r) (snd r))
  /\ (allocator = nullptr \/ fst r = nullptr ->
        h' = snd res
        /\ objects h' = objects h
        /\ count is_deallocate (trace h') = count is_deallocate (trace h)
        /\ count is_destroy (trace h') = count is_destroy (trace h)).
Proof.
  intros r res h'. subst h' res.
  unfold Scalar.make_unique, call_allocate. fold r.
  destruct r as [memory w] eqn:Er. simpl.
  destruct (ptr_to_bool allocator) eqn:Ha; simpl.
  - destruct (ptr_to_bool memory) eqn:Hm; simpl.
    + split.
      * intros _ _. unfold Scalar.dtor. simpl. rewrite Hm, Ha. simpl.
        unfold call_deallocate, destroy_at. simpl.
        rewrite delete_insert_eq, <- !app_assoc. simpl. auto.
      * apply ptr_to_bool_true in Ha, Hm. intros [? | ?]; congruence.
    + split.
      * apply ptr_to_bool_false in Hm. congruence.
      * intros _. unfold Scalar.dtor. simpl.
        rewrite !count_app. simpl. repeat split; try reflexivity; lia.
  - split.
    + apply ptr_to_bool_false in Ha. congruence.
    + intros _. repeat split; reflexivity.
Qed.

(** X2: the array [make_unique], for a length whose byte size fits in
    [size_t]: a null allocator or a failed allocation gives the empty pointer
    of length 0 and constructs nothing; otherwise the result records the
    allocator, the address returned (as object pointer and as allocation) and
    the length, and exactly [n] elements have been value-initialised, at
    consecutive strides from that address, lowest first. *)
Theorem make_unique_array_spec (dflt : T) (allocator : ptr) (n : Z)
  (h : Heap World T) :
  0 <= n -> 0 <= sizeof T * n < 2 ^ size_bits ->
  let r := allocate allocator (sizeof T * n) (alignof T) (world h) in
  let res := Arr.make_unique size_bits dflt allocator n h in
  (allocator = nullptr \/ fst r = nullptr ->
     fst res = Arr.UniquePtr_default
     /\ Arr.operator_bool (fst res) = false /\ Arr.length (fst res) = 0
     /\ objects (snd res) = objects h
     /\ count is_construct (trace (snd res)) = count is_construct (trace h))
  /\ (allocator <> nullptr -> fst r <> nullptr ->
        fst res = Arr.UniquePtr_ctor allocator (fst r) (fst r) n
        /\ Arr.operator_bool (fst res) = true /\ Arr.length (fst res) = n
        /\ trace (snd res)
           = trace h ++ EvAllocate allocator (sizeof T * n) (alignof T) (fst r)
               :: map EvConstruct
                    (element_addrs (sizeof T) (fst r) (Z.to_nat n))
        /\ world (snd res) = snd r
        /\ (forall i : Z, 0 <= i < n ->
              objects (snd res) !! (fst r + i * sizeof T) = Some dflt)).
Proof.
  intros Hn Hfit r res. subst res.
  unfold Arr.make_unique, call_allocate.
  rewrite (wrap_small _ Hfit). fold r.
  destruct r as [memory w] eqn:Er. simpl.
  destruct (ptr_to_bool allocator) eqn:Ha; simpl.
  - destruct (ptr_to_bool memory) eqn:Hm; simpl.
    + split; [apply ptr_to_bool_true in Ha, Hm; intros [? | ?]; congruence |].
      intros _ _.
      destruct (construct_n_heap (Z.to_nat n) memory dflt
                  (mkHeap w (objects h)
                     (trace h ++ [EvAllocate allocator (sizeof T * n)
                                             (alignof T) memory])))
        as [Ht Hw].
      unfold Arr.operator_bool. simpl. rewrite Hm, Ht, Hw. simpl.
      rewrite <- app_assoc. simpl.
      repeat split; try reflexivity.
      intros i Hi. replace i with (Z.of_nat (Z.to_nat i)) by lia.
      apply construct_n_elements. lia.
    + split; [| apply ptr_to_bool_false in Hm; congruence].
      intros _. rewrite count_app. simpl. repeat split; try reflexivity. lia.
  - split; [| apply ptr_to_bool_false in Ha; congruence].
    intros _. repeat split; reflexivity.
Qed.

(** X3: an array made by [make_unique] and then destroyed: after the
    allocation the elements are constructed and later destroyed at the same
    addresses in the same order, as many destructor calls as constructor
    calls, then the address allocated goes back to the same allocator, and no
    element is alive afterwards; after a failed [make_unique] the destructor
    calls nothing. *)
Theorem array_lifetime_roundtrip (dflt : T) (allocator : ptr) (n : Z)
  (h : Heap World T) :
  0 <= n -> 0 <= sizeof T * n < 2 ^ size_bits ->
  let r := allocate allocator (sizeof T * n) (alignof T) (world h) in
  let res := Arr.make_unique size_bits dflt allocator n h in
  let h' := Arr.dtor (fst res) (snd res) in
  let addrs := element_addrs (sizeof T) (fst r) (Z.to_nat n) in
  (allocator <> nullptr -> fst r <> nullptr ->
     trace h'
     = trace h ++ [EvAllocate allocator (sizeof T * n) (alignof T) (fst r)]
         ++ map EvConstruct addrs ++ map EvDestroy addrs
         ++ [EvDeallocate allocator (fst r)]
     /\ Z.of_nat (length addrs) = n
     /\ world h' = deallocate allocator (fst r) (snd r)
     /\ (forall i : Z, 0 <= i < n ->
           objects h' !! (fst r + i * sizeof T) = None))
  /\ (allocator = nullptr \/ fst r = nullptr -> h' = snd res).
Proof.
  intros Hn Hfit r res h' addrs. subst h' res addrs.
  unfold Arr.make_unique, call_allocate.
  rewrite (wrap_small _ Hfit). fold r.
  destruct r as [memory w] eqn:Er. simpl.
  destruct (ptr_to_bool allocator) eqn:Ha; simpl.
  - destruct (ptr_to_bool memory) eqn:Hm; simpl.
    + split; [| apply ptr_to_bool_true in Ha, Hm; intros [? | ?]; congruence].
      intros _ _. unfold Arr.dtor. simpl. rewrite Hm, Ha. simpl.
      unfold call_deallocate, destroy. simpl.
      set (h1 := construct_n memory (Z.to_nat n) dflt _).
      destruct (destroy_n_trace (Z.to_nat n) memory h1) as [Ht Hw].
      destruct (construct_n_heap (Z.to_nat n) memory dflt
                  (mkHeap w (objects h)
                     (trace h ++ [EvAllocate allocator (sizeof T * n)
                                             (alignof T) memory])))
        as [Ht1 Hw1].
      fold h1 in Ht1, Hw1. rewrite Ht, Hw, Ht1, Hw1. simpl.
      rewrite element_addrs_length, <- !app_assoc. simpl.
      repeat split; try reflexivity; try lia.
      intros i Hi. replace i with (Z.of_nat (Z.to_nat i)) by lia.
      apply destroy_n_elements. lia.
    + split; [apply ptr_to_bool_false in Hm; congruence |].
      intros _. reflexivity.
  - split; [apply ptr_to_bool_false in Ha; congruence |].
    intros _. reflexivity.
Qed.
End LifetimeExtras.

(** ** Moves, swaps and ownership *)

Lemma scalar_convert_ctor_spec (delta : Z) (this other : loc)
  (s : gmap loc Scalar.UniquePtr) :
  this <> other ->
  Scalar.convert_ctor delta this other s
  = (p ← s !! other;
     Some (<[other := Scalar.UniquePtr_default]>
             (<[this := Scalar.mkUniquePtr
                          (Scalar.m_allocator p)
                          (Scalar.static_cast_base delta (Scalar.m_ptr p))
                          (Scalar.m_allocated_memory p)]> s))).
Proof.
  intros Hne. unfold Scalar.convert_ctor, update.
  destruct (s !! other) as [[a1 a2 a3] |] eqn:Ho; [| reflexivity].
  simplify_map_eq. f_equal. apply map_eq. intros i.
  destruct (decide (i = other)); destruct (decide (i = this));
    simplify_map_eq; done.
Qed.

Lemma scalar_dtor_default {World : Type} `{!IAllocator World} {T : Type}
  `{!ElemType T} (h : Heap World T) :
  Scalar.dtor Scalar.UniquePtr_default h = h.
Proof. reflexivity. Qed.

Lemma arr_dtor_default {World : Type} `{!IAllocator World} {T : Type}
  `{!ElemType T} (h : Heap World T) :
  Arr.dtor Arr.UniquePtr_default h = h.
Proof. reflexivity. Qed.

Section MoveExtras.
Context {World : Type} `{!IAllocator World} {T : Type} `{!ElemType T}.

(** X4: after a scalar move, by the move constructor or by move assignment
    between two variables, destroying the source calls nothing and
    destroying the destination does what destroying the source would have
    done before the move: the object is destroyed and its memory released
    once, whichever variable goes out of scope first. *)
Theorem scalar_moved_from_dtor (s : gmap loc Scalar.UniquePtr)
  (other : loc) (p : Scalar.UniquePtr) (h g : Heap World T) :
  s !! other = Some p ->
  (forall this : loc, s !! this = None ->
     exists s' d q,
       Scalar.move_ctor this other s = Some s'
       /\ s' !! this = Some d /\ s' !! other = Some q
       /\ Scalar.dtor q g = g /\ Scalar.dtor d g = Scalar.dtor p g
       /\ Scalar.dtor q (Scalar.dtor d g) = Scalar.dtor p g
       /\ Scalar.dtor d (Scalar.dtor q g) = Scalar.dtor p g)
  /\ (forall (this : loc) (q0 : Scalar.UniquePtr),
        this <> other -> s !! this = Some q0 ->
        exists s' h' d q,
          Scalar.operator_assign this other (s, h) = Some (s', h')
          /\ s' !! this = Some d /\ s' !! other = Some q
          /\ Scalar.dtor q g = g /\ Scalar.dtor d g = Scalar.dtor p g).
Proof.
  intros Hother. split.
  - intros this Hthis. assert (Hne : this <> other) by congruence.
    rewrite (scalar_move_ctor_spec this other s p Hthis Hother).
    exists (<[other := Scalar.UniquePtr_default]> (<[this := p]> s)),
      p, Scalar.UniquePtr_default.
    rewrite lookup_insert_ne, !lookup_insert_eq by congruence.
    rewrite !scalar_dtor_default. repeat split; reflexivity.
  - intros this q0 Hne Hthis.
    rewrite (scalar_operator_assign_spec this other s h q0 p Hthis Hother).
    destruct (decide (this = other)) as [? | _]; [contradiction |].
    exists (<[this := p]> (<[other := Scalar.UniquePtr_default]> s)),
      (Scalar.dtor q0 h), p, Scalar.UniquePtr_default.
    rewrite lookup_insert_eq, lookup_insert_ne, lookup_insert_eq by congruence.
    rewrite !scalar_dtor_default. repeat split; reflexivity.
Qed.

(** X5: array move assignment.  Assigning a variable to itself changes
    neither the store nor the heap.  Between two variables the destination
    takes over the four members of the source, length included, the source
    becomes the empty pointer of length 0, and the array the destination held
    is destroyed, each of its elements once and then its memory released
    (nothing is called if it held none). *)
Theorem array_move_assign_spec (s : gmap loc Arr.UniquePtr) (h : Heap World T)
  (this other : loc) (q p : Arr.UniquePtr) :
  s !! this = Some q -> s !! other = Some p ->
  (this = other -> Arr.operator_assign this other (s, h) = Some (s, h))
  /\ (this <> other ->
      exists s' h',
        Arr.operator_assign this other (s, h) = Some (s', h')
        /\ s' !! this = Some p
        /\ s' !! other = Some (Arr.mkUniquePtr nullptr nullptr nullptr 0)
        /\ (forall l : loc, l <> this -> l <> other -> s' !! l = s !! l)
        /\ h' = Arr.dtor q h
        /\ (Arr.m_ptr q <> nullptr -> Arr.m_allocator q <> nullptr ->
            trace h'
            = trace h
                ++ map EvDestroy
                     (element_addrs (sizeof T) (Arr.m_ptr q)
                                    (Z.to_nat (Arr.m_length q)))
                ++ [EvDeallocate (Arr.m_allocator q)
                                 (Arr.m_allocated_memory q)]
            /\ count is_destroy (trace h')
               = (count is_destroy (trace h) + Z.to_nat (Arr.m_length q))%nat
            /\ count is_deallocate (trace h')
               = S (count is_deallocate (trace h)))
        /\ (Arr.m_ptr q = nullptr \/ Arr.m_allocator q = nullptr -> h' = h)).
Proof.
  intros Hthis Hother.
  rewrite (arr_operator_assign_spec this other s h q Hthis), Hother. simpl.
  split.
  - intros Heq. destruct (decide (this = other)); [reflexivity | contradiction].
  - intros Hne. destruct (decide (this = other)) as [? | _]; [contradiction |].
    exists (<[this := p]> (<[other := Arr.UniquePtr_default]> s)),
      (Arr.dtor q h).
    split; [reflexivity |].
    split; [apply lookup_insert_eq |].
    split; [rewrite lookup_insert_ne, lookup_insert_eq by congruence;
            reflexivity |].
    split; [intros l Hl1 Hl2; rewrite !lookup_insert_ne by congruence;
            reflexivity |].
    split; [reflexivity |]. split.
    + intros Hq Ha. apply ptr_to_bool_true in Hq, Ha.
      unfold Arr.dtor. rewrite Hq, Ha. simpl.
      unfold call_deallocate, destroy. simpl.
      destruct (destroy_n_trace (Z.to_nat (Arr.m_length q)) (Arr.m_ptr q) h)
        as [Ht _].
      rewrite Ht, <- app_assoc.
      destruct (count_destroy_map
                  (element_addrs (sizeof T) (Arr.m_ptr q)
                     (Z.to_nat (Arr.m_length q)))) as [Hd Hf].
      rewrite !count_app, Hd, Hf, element_addrs_length. simpl.
      repeat split; try reflexivity; lia.
    + intros [Hq | Ha]; apply ptr_to_bool_false in Hq || apply ptr_to_bool_false in Ha;
        unfold Arr.dtor.
      * rewrite Hq. reflexivity.
      * rewrite Ha, andb_false_r. reflexivity.
Qed.

(** X6: after an array move construction the source is destroyed without a
    call, and destroying the new object destroys the elements and releases
    the memory exactly as destroying the source would have before. *)
Theorem array_moved_from_dtor (s : gmap loc Arr.UniquePtr)
  (this other : loc) (p : Arr.UniquePtr) (g : Heap World T) :
  s !! other = Some p -> s !! this = None ->
  exists s' d q,
    Arr.move_ctor this other s = Some s'
    /\ s' !! this = Some d /\ s' !! other = Some q
    /\ Arr.dtor q g = g /\ Arr.dtor d g = Arr.dtor p g
    /\ Arr.dtor q (Arr.dtor d g) = Arr.dtor p g
    /\ Arr.dtor d (Arr.dtor q g) = Arr.dtor p g.
Proof.
  intros Hother Hthis. assert (Hne : this <> other) by congruence.
  rewrite (arr_move_ctor_spec this other s Hne), Hother. simpl.
  exists (<[other := Arr.UniquePtr_default]> (<[this := p]> s)),
    p, Arr.UniquePtr_default.
  rewrite lookup_insert_ne, !lookup_insert_eq by congruence.
  rewrite !arr_dtor_default. repeat split; reflexivity.
Qed.
End MoveExtras.

(** X7: [swap] of two scalar pointers is symmetric in its two arguments,
    undoes itself when done twice, and leaves the store as it is when a
    pointer is swapped with itself. *)
Theorem scalar_swap_algebra (s : gmap loc Scalar.UniquePtr) (a b : loc)
  (pa pb : Scalar.UniquePtr) :
  s !! a = Some pa -> s !! b = Some pb ->
  Scalar.swap a b s = Scalar.swap b a s
  /\ (Scalar.swap a b s ≫= Scalar.swap a b) = Some s
  /\ Scalar.swap a a s = Some s.
Proof.
  intros Ha Hb. rewrite !scalar_swap_spec, Ha, Hb. simpl.
  assert (Hab : <[b := pa]> (<[a := pb]> s) = <[a := pb]> (<[b := pa]> s)).
  { apply map_eq. intros i.
    destruct (decide (i = a)); destruct (decide (i = b));
      simplify_map_eq; done. }
  split; [f_equal; exact Hab |]. split.
  - rewrite scalar_swap_spec.
    assert (H1 : <[b := pa]> (<[a := pb]> s) !! a = Some pb).
    { rewrite Hab. apply lookup_insert_eq. }
    rewrite H1, lookup_insert_eq. simpl. f_equal. apply map_eq. intros i.
    destruct (decide (i = a)); destruct (decide (i = b));
      simplify_map_eq; done.
  - f_equal. rewrite insert_insert_eq. apply insert_id. exact Ha.
Qed.

(** X8: [swap] of two array pointers exchanges all four members, the length
    with the rest, and touches no other variable; done twice it restores the
    store. *)
Theorem array_swap_exchanges (s : gmap loc Arr.UniquePtr) (a b : loc)
  (pa pb : Arr.UniquePtr) :
  s !! a = Some pa -> s !! b = Some pb ->
  exists s',
    Arr.swap a b s = Some s'
    /\ s' !! a = Some pb /\ s' !! b = Some pa
    /\ (forall l : loc, l <> a -> l <> b -> s' !! l = s !! l)
    /\ Arr.swap a b s' = Some s
    /\ Arr.swap b a s = Some s'.
Proof.
  intros Ha Hb. rewrite !arr_swap_spec, Ha, Hb. simpl.
  exists (<[b := pa]> (<[a := pb]> s)).
  assert (Hab : <[b := pa]> (<[a := pb]> s) = <[a := pb]> (<[b := pa]> s)).
  { apply map_eq. intros i.
    destruct (decide (i = a)); destruct (decide (i = b));
      simplify_map_eq; done. }
  assert (H1 : <[b := pa]> (<[a := pb]> s) !! a = Some pb).
  { rewrite Hab. apply lookup_insert_eq. }
  split; [reflexivity |]. split; [exact H1 |].
  split; [apply lookup_insert_eq |]. split.
  { intros l Hla Hlb. rewrite !lookup_insert_ne by congruence. reflexivity. }
  split.
  - rewrite arr_swap_spec, H1, lookup_insert_eq. simpl. f_equal.
    apply map_eq. intros i.
    destruct (decide (i = a)); destruct (decide (i = b));
      simplify_map_eq; done.
  - f_equal. symmetry. exact Hab.
Qed.

Lemma sole_owner_insert_default (s : gmap loc Scalar.UniquePtr) (l : loc) :
  Scalar.sole_owner s ->
  Scalar.sole_owner (<[l := Scalar.UniquePtr_default]> s).
Proof.
  intros Hs l1 l2 p1 p2 H1 H2 B1 B2 Hm.
  destruct (decide (l1 = l)) as [-> | N1].
  { rewrite lookup_insert_eq in H1. injection H1 as <-. discriminate. }
  destruct (decide (l2 = l)) as [-> | N2].
  { rewrite lookup_insert_eq in H2. injection H2 as <-. discriminate. }
  rewrite lookup_insert_ne in H1, H2 by congruence.
  exact (Hs l1 l2 p1 p2 H1 H2 B1 B2 Hm).
Qed.

(** Moving the value of [other] to [this], whose own value is dropped (or
    which is new), and leaving [other] empty. *)
Lemma sole_owner_transfer (s : gmap loc Scalar.UniquePtr) (this other : loc)
  (p : Scalar.UniquePtr) :
  this <> other -> s !! other = Some p -> Scalar.sole_owner s ->
  Scalar.sole_owner (<[this := p]> (<[other := Scalar.UniquePtr_default]> s)).
Proof.
  intros Hne Ho Hs l1 l2 p1 p2 H1 H2 B1 B2 Hm.
  destruct (decide (l1 = this)) as [-> | N1];
    destruct (decide (l2 = this)) as [-> | N2]; [reflexivity | | |].
  - rewrite lookup_insert_eq in H1. injection H1 as <-.
    rewrite lookup_insert_ne in H2 by congruence.
    destruct (decide (l2 = other)) as [-> | N3].
    + rewrite lookup_insert_eq in H2. injection H2 as <-. discriminate.
    + rewrite lookup_insert_ne in H2 by congruence.
      pose proof (Hs other l2 p p2 Ho H2 B1 B2 Hm). congruence.
  - rewrite lookup_insert_eq in H2. injection H2 as <-.
    rewrite lookup_insert_ne in H1 by congruence.
    destruct (decide (l1 = other)) as [-> | N3].
    + rewrite lookup_insert_eq in H1. injection H1 as <-. discriminate.
    + rewrite lookup_insert_ne in H1 by congruence.
      pose proof (Hs l1 other p1 p H1 Ho B1 B2 Hm). congruence.
  - rewrite lookup_insert_ne in H1, H2 by congruence.
    exact (sole_owner_insert_default s other Hs l1 l2 p1 p2 H1 H2 B1 B2 Hm).
Qed.

Lemma sole_owner_exchange (s : gmap loc Scalar.UniquePtr) (a b : loc)
  (pa pb : Scalar.UniquePtr) :
  s !! a = Some pa -> s !! b = Some pb -> Scalar.sole_owner s ->
  Scalar.sole_owner (<[b := pa]> (<[a := pb]> s)).
Proof.
  intros Ha Hb Hs.
  destruct (decide (a = b)) as [-> | Hne].
  { rewrite insert_insert_eq, insert_id by exact Ha. exact Hs. }
  intros l1 l2 p1 p2 H1 H2 B1 B2 Hm.
  assert (Hlook : forall l q, <[b := pa]> (<[a := pb]> s) !! l = Some q ->
            exists l', s !! l' = Some q
              /\ (l = a -> l' = b) /\ (l = b -> l' = a)
              /\ (l <> a -> l <> b -> l' = l)).
  { intros l q Hl.
    destruct (decide (l = b)) as [-> | Nb].
    - rewrite lookup_insert_eq in Hl. injection Hl as <-.
      exists a. repeat split; congruence.
    - rewrite lookup_insert_ne in Hl by congruence.
      destruct (decide (l = a)) as [-> | Na].
      + rewrite lookup_insert_eq in Hl. injection Hl as <-.
        exists b. repeat split; congruence.
      + rewrite lookup_insert_ne in Hl by congruence.
        exists l. repeat split; congruence. }
  destruct (Hlook l1 p1 H1) as (k1 & K1 & A1 & A2 & A3).
  destruct (Hlook l2 p2 H2) as (k2 & K2 & C1 & C2 & C3).
  pose proof (Hs k1 k2 p1 p2 K1 K2 B1 B2 Hm) as Hk.
  destruct (decide (l1 = a)); destruct (decide (l1 = b));
    destruct (decide (l2 = a)); destruct (decide (l2 = b));
    intuition congruence.
Qed.

Section OwnershipExtras.
Context {World : Type} `{!IAllocator World} {T : Type} `{!ElemType T}.

(** X9: sole ownership is kept.  In a store where no two non-empty scalar
    pointers hold the same allocation, this is still so after a move
    construction, after a move assignment (to itself or to another variable),
    after a swap and after a converting move construction. *)
Theorem sole_owner_preserved (s : gmap loc Scalar.UniquePtr) (h : Heap World T)
  (a b : loc) (pa pb : Scalar.UniquePtr) :
  Scalar.sole_owner s -> s !! a = Some pa -> s !! b = Some pb ->
  (forall this : loc, s !! this = None ->
     exists s', Scalar.move_ctor this b s = Some s' /\ Scalar.sole_owner s')
  /\ (exists s' h',
        Scalar.operator_assign a b (s, h) = Some (s', h')
        /\ Scalar.sole_owner s')
  /\ (exists s', Scalar.swap a b s = Some s' /\ Scalar.sole_owner s')
  /\ (forall (delta : Z) (this : loc), s !! this = None ->
        exists s', Scalar.convert_ctor delta this b s = Some s'
                   /\ Scalar.sole_owner s').
Proof.
  intros Hs Ha Hb. split; [| split; [| split]].
  - intros this Hthis. assert (Hne : this <> b) by congruence.
    rewrite (scalar_move_ctor_spec this b s pb Hthis Hb).
    eexists. split; [reflexivity |].
    replace (<[b := Scalar.UniquePtr_default]> (<[this := pb]> s))
      with (<[this := pb]> (<[b := Scalar.UniquePtr_default]> s))
      by (apply insert_insert_ne; congruence).
    apply sole_owner_transfer; assumption.
  - rewrite (scalar_operator_assign_spec a b s h pa pb Ha Hb).
    destruct (decide (a = b)) as [Heq | Hne].
    + exists s, h. split; [reflexivity | exact Hs].
    + eexists _, _. split; [reflexivity |].
      apply sole_owner_transfer; assumption.
  - rewrite scalar_swap_spec, Ha, Hb. simpl.
    eexists. split; [reflexivity |].
    apply sole_owner_exchange; assumption.
  - intros delta this Hthis. assert (Hne : this <> b) by congruence.
    rewrite (scalar_convert_ctor_spec delta this b s Hne), Hb. simpl.
    eexists. split; [reflexivity |].
    intros l1 l2 p1 p2 H1 H2 B1 B2 Hm.
    set (c := Scalar.mkUniquePtr (Scalar.m_allocator pb)
                (Scalar.static_cast_base delta (Scalar.m_ptr pb))
                (Scalar.m_allocated_memory pb)) in *.
    assert (Hc : Scalar.operator_bool c = true ->
                 Scalar.operator_bool pb = true).
    { unfold c, Scalar.operator_bool, Scalar.static_cast_base. simpl.
      destruct (ptr_to_bool (Scalar.m_ptr pb)); [auto | discriminate]. }
    assert (Hlook : forall l q,
              <[b := Scalar.UniquePtr_default]> (<[this := c]> s) !! l = Some q ->
              Scalar.operator_bool q = true ->
              (l = this /\ q = c) \/ (l <> this /\ l <> b /\ s !! l = Some q)).
    { intros l q Hl Bq.
      destruct (decide (l = b)) as [-> | Nb].
      - rewrite lookup_insert_eq in Hl. injection Hl as <-. discriminate.
      - rewrite lookup_insert_ne in Hl by congruence.
        destruct (decide (l = this)) as [-> | Nt].
        + rewrite lookup_insert_eq in Hl. injection Hl as <-. auto.
        + rewrite lookup_insert_ne in Hl by congruence. auto. }
    destruct (Hlook l1 p1 H1 B1) as [[-> ->] | (N1 & N1' & K1)];
      destruct (Hlook l2 p2 H2 B2) as [[-> ->] | (N2 & N2' & K2)].
    + reflexivity.
    + pose proof (Hs b l2 pb p2 Hb K2 (Hc B1) B2 Hm). congruence.
    + pose proof (Hs l1 b p1 pb K1 Hb B1 (Hc B2) Hm). congruence.
    + exact (Hs l1 l2 p1 p2 K1 K2 B1 B2 Hm).
Qed.

(** X10: the converting move constructor, from a pointer to a derived class
    to a pointer to the base class that lies [delta] bytes into it: the new
    pointer keeps the allocator and the allocation and points to the base
    subobject, an empty source gives an empty pointer, the source is left
    empty, and the destructor of the new pointer releases the allocation the
    allocator returned, not the address of the subobject. *)
Theorem convert_ctor_spec (delta : Z) (s : gmap loc Scalar.UniquePtr)
  (this other : loc) (p : Scalar.UniquePtr) (g : Heap World T) :
  s !! other = Some p -> s !! this = None ->
  exists s' d,
    Scalar.convert_ctor delta this other s = Some s'
    /\ s' !! this = Some d
    /\ s' !! other = Some Scalar.UniquePtr_default
    /\ (forall l : loc, l <> this -> l <> other -> s' !! l = s !! l)
    /\ Scalar.m_allocator d = Scalar.m_allocator p
    /\ Scalar.m_allocated_memory d = Scalar.m_allocated_memory p
    /\ (Scalar.get p = nullptr -> Scalar.get d = nullptr)
    /\ (Scalar.get p <> nullptr -> Scalar.get d = Scalar.get p + delta)
    /\ (Scalar.get d <> nullptr -> Scalar.m_allocator p <> nullptr ->
        trace (Scalar.dtor d g)
        = trace g ++ [EvDestroy (Scalar.get p + delta);
                      EvDeallocate (Scalar.m_allocator p)
                                   (Scalar.m_allocated_memory p)]
        /\ world (Scalar.dtor d g)
           = deallocate (Scalar.m_allocator p) (Scalar.m_allocated_memory p)
                        (world g)).
Proof.
  intros Hother Hthis. assert (Hne : this <> other) by congruence.
  rewrite (scalar_convert_ctor_spec delta this other s Hne), Hother. simpl.
  eexists _, _. split; [reflexivity |].
  split; [rewrite lookup_insert_ne, lookup_insert_eq by congruence;
          reflexivity |].
  split; [apply lookup_insert_eq |].
  split; [intros l H1 H2; rewrite !lookup_insert_ne by congruence;
          reflexivity |].
  unfold Scalar.get, Scalar.static_cast_base. simpl.
  split; [reflexivity |]. split; [reflexivity |].
  split; [intros Hp; apply ptr_to_bool_false in Hp; rewrite Hp; reflexivity |].
  split; [intros Hp; apply ptr_to_bool_true in Hp; rewrite Hp; reflexivity |].
  intros Hd Ha.
  destruct (ptr_to_bool (Scalar.m_ptr p)) eqn:Hp; [| contradiction].
  destruct (scalar_dtor_trace
              (Scalar.mkUniquePtr (Scalar.m_allocator p)
                 (Scalar.m_ptr p + delta) (Scalar.m_allocated_memory p)) g)
    as [_ Hsome].
  rewrite (Hsome Hd Ha). simpl. split; reflexivity.
Qed.
End OwnershipExtras.

(** ** Element access *)

Section AccessExtras.
Context {World : Type} `{!IAllocator World} {T : Type} `{!ElemType T}.
Variable size_bits : Z.

(** X11: [operator[]] on an array pointer.  With a non-null object pointer
    and an index below the length it returns the element [index] strides
    after the first, in every build.  In a debug build an empty pointer or an
    index at or past the length stops at an assertion.  A release build has
    no check: an index at or past the length yields the address that many
    strides on, and an empty pointer has no defined result. *)
Theorem array_operator_index_bounds (p : Arr.UniquePtr) (index : Z) :
  (Arr.get p <> nullptr -> index < Arr.length p ->
     forall b : build,
       Arr.operator_index b p index = Returns (Arr.get p + index * sizeof T))
  /\ (Arr.get p = nullptr \/ Arr.length p <= index ->
        Arr.operator_index Debug p index = AssertionFailed)
  /\ (Arr.get p <> nullptr -> Arr.length p <= index ->
        Arr.operator_index Release p index
        = Returns (Arr.get p + index * sizeof T))
  /\ (Arr.get p = nullptr -> Arr.operator_index Release p index = Undefined).
Proof.
  unfold Arr.get, Arr.length, Arr.operator_index, Arr.subscript.
  split; [| split; [| split]].
  - intros Hp Hi b. apply ptr_to_bool_true in Hp. rewrite Hp.
    assert (Hlt : (index <? Arr.m_length p) = true) by (apply Z.ltb_lt; lia).
    rewrite Hlt. destruct b; reflexivity.
  - intros [Hp | Hi].
    + apply ptr_to_bool_false in Hp. rewrite Hp. reflexivity.
    + assert (Hlt : (index <? Arr.m_length p) = false)
        by (apply Z.ltb_ge; lia).
      rewrite Hlt. simpl. destruct (ptr_to_bool (Arr.m_ptr p)); reflexivity.
  - intros Hp _. apply ptr_to_bool_true in Hp. simpl. rewrite Hp. reflexivity.
  - intros Hp. apply ptr_to_bool_false in Hp. simpl. rewrite Hp. reflexivity.
Qed.

(** X12: an array of [n] elements fresh from [make_unique]: for every index
    below [n], [operator[]] returns an address at which a value-initialised
    element is alive, and in a debug build the index [n] itself stops at the
    assertion. *)
Theorem array_index_after_make_unique (dflt : T) (allocator : ptr) (n : Z)
  (h : Heap World T) (b : build) :
  0 <= n -> 0 <= sizeof T * n < 2 ^ size_bits ->
  allocator <> nullptr ->
  fst (allocate allocator (sizeof T * n) (alignof T) (world h)) <> nullptr ->
  let res := Arr.make_unique size_bits dflt allocator n h in
  (forall i : Z, 0 <= i < n ->
     exists a : ptr,
       Arr.operator_index b (fst res) i = Returns a
       /\ objects (snd res) !! a = Some dflt)
  /\ Arr.operator_index Debug (fst res) n = AssertionFailed.
Proof.
  intros Hn Hfit Ha Hr res. subst res.
  apply ptr_to_bool_true in Ha, Hr.
  unfold Arr.make_unique, call_allocate.
  rewrite (wrap_small size_bits _ Hfit), Ha. simpl.
  destruct (allocate allocator (sizeof T * n) (alignof T) (world h))
    as [memory w]. simpl in Hr. rewrite Hr. simpl.
  unfold Arr.operator_index, Arr.subscript. simpl. rewrite Hr. split.
  - intros i Hi. exists (memory + i * sizeof T).
    assert (Hlt : (i <? n) = true) by (apply Z.ltb_lt; lia).
    rewrite Hlt. split; [destruct b; reflexivity |].
    replace i with (Z.of_nat (Z.to_nat i)) by lia.
    apply construct_n_elements. lia.
  - rewrite Z.ltb_irrefl. reflexivity.
Qed.

End AccessExtras.

(** ** The adapter: allocation and release *)

Section AdapterExtras.
Context {World : Type} `{!IAllocator World} {T : Type} `{!ElemType T}.
Variable size_bits : Z.

(** X13: a block taken through the adapter and given back through it.  A
    count of 0 calls nothing at all; a failed allocation is followed by no
    release; otherwise the address the underlying allocator returned goes
    back to that same allocator, whatever count is passed to [deallocate].
    The objects in memory are not touched. *)
Theorem stl_allocate_deallocate_roundtrip (a : Stl.StlAllocator T) (n m : Z)
  (h : Heap World T) :
  let size := wrap size_bits (n * sizeof T) in
  let r := allocate (Stl.m_allocator a) size (alignof T) (world h) in
  let res := Stl.allocate size_bits a n h in
  let h' := Stl.deallocate a (fst res) m (snd res) in
  (n = 0 -> fst res = nullptr /\ h' = h)
  /\ (n <> 0 -> fst r = nullptr ->
        fst res = nullptr
        /\ trace h' = trace h ++ [EvAllocate (Stl.m_allocator a) size
                                             (alignof T) nullptr]
        /\ world h' = snd r)
  /\ (n <> 0 -> fst r <> nullptr ->
        fst res = fst r
        /\ trace h' = trace h ++ [EvAllocate (Stl.m_allocator a) size
                                             (alignof T) (fst r);
                                  EvDeallocate (Stl.m_allocator a) (fst r)]
        /\ world h' = deallocate (Stl.m_allocator a) (fst r) (snd r))
  /\ objects h' = objects h.
Proof.
  intros size r res h'. subst h' res.
  unfold Stl.allocate, Stl.deallocate, call_allocate.
  destruct (Z.eqb_spec n 0) as [-> | Hn].
  - simpl. repeat split; try reflexivity; intros; contradiction.
  - fold size. fold r. destruct r as [p w]. simpl.
    destruct (ptr_to_bool p) eqn:Hp; simpl.
    + apply ptr_to_bool_true in Hp.
      unfold call_deallocate. simpl. rewrite <- app_assoc. simpl.
      repeat split; try reflexivity; intros; contradiction.
    + apply ptr_to_bool_false in Hp. subst p.
      repeat split; try reflexivity; intros; contradiction.
Qed.

(** X14: adapters that compare equal are interchangeable: they allocate
    alike, and either releases what the other allocated, with any count.  A
    rebound adapter releases to the allocator of the adapter it was made
    from. *)
Theorem stl_equal_adapters_interchangeable {U : Type}
  (a b : Stl.StlAllocator T) (c : Stl.StlAllocator U) (n m k : Z) (p : ptr)
  (h : Heap World T) :
  Stl.operator_eq a b = true ->
  Stl.allocate size_bits a n h = Stl.allocate size_bits b n h
  /\ Stl.deallocate a p m h = Stl.deallocate b p k h
  /\ Stl.deallocate (Stl.StlAllocator_rebind c : Stl.StlAllocator T) p m h
     = Stl.deallocate (Stl.StlAllocator_ctor (Stl.get_allocator c)) p k h.
Proof.
  intros Heq. unfold Stl.operator_eq in Heq. apply Z.eqb_eq in Heq.
  unfold Stl.allocate, Stl.deallocate. rewrite Heq.
  repeat split; reflexivity.
Qed.
End AdapterExtras.

(** ** The tests' tracking allocator *)



Lemma std_find_pushed (p : ptr) (l : list ptr) :
  p ∉ l -> Dummy.std_find p (l ++ [p]) = Some (length l).
Proof.
  induction l as [| x l IH]; simpl; intros Hp.
  - rewrite Z.eqb_refl. reflexivity.
  - apply not_elem_of_cons in Hp as [Hne Hp].
    destruct (Z.eqb_spec x p) as [-> | _]; [congruence |].
    rewrite (IH Hp). reflexivity.
Qed.

Section DummyExtras.
Context {Base : Type} `{!IAllocator Base} {T : Type} `{!ElemType T}.


(** X16: a scalar pointer made and destroyed on a [DummyAllocator].  When the
    base allocator returns an address that the vector does not hold yet, the
    address is in the vector while the pointer lives and the vector is as
    before once the pointer is destroyed, the base allocator having been
    asked to release that address.  When the base allocator fails, the null
    result is recorded in the vector all the same and stays there, since the
    empty pointer releases nothing. *)
Theorem dummy_tracks_scalar_lifetime {Args : Type} (ctor : Args -> T)
  (allocator : ptr) (args : Args) (h : Heap (Dummy.World Base) T) :
  allocator <> nullptr ->
  let r := allocate allocator (sizeof T) (alignof T) (Dummy.base (world h)) in
  let res := Scalar.make_unique (IAllocator0 := Dummy.dummy) ctor allocator
               args h in
  let h' := Scalar.dtor (IAllocator0 := Dummy.dummy) (fst res) (snd res) in
  (fst r <> nullptr -> fst r ∉ Dummy.m_allocations (world h) ->
     Dummy.m_allocations (world (snd res))
     = Dummy.m_allocations (world h) ++ [fst r]
     /\ Dummy.m_allocations (world h') = Dummy.m_allocations (world h)
     /\ Dummy.base (world h') = deallocate allocator (fst r) (snd r))
  /\ (fst r = nullptr ->
        Dummy.m_allocations (world h')
        = Dummy.m_allocations (world h) ++ [nullptr]
        /\ Dummy.base (world h') = snd r).
Proof.
  intros Ha r res h'. subst h' res. apply ptr_to_bool_true in Ha.
  unfold Scalar.make_unique, call_allocate. rewrite Ha. simpl.
  unfold Dummy.dummy_allocate. fold r. destruct r as [p b]. simpl.
  destruct (ptr_to_bool p) eqn:Hp; simpl.
  - split; [| apply ptr_to_bool_true in Hp; congruence].
    intros _ Hfresh. unfold Scalar.dtor. simpl. rewrite Hp, Ha. simpl.
    unfold Dummy.dummy_deallocate. simpl.
    rewrite (std_find_pushed p _ Hfresh). simpl.
    rewrite delete_middle, app_nil_r. repeat split; reflexivity.
  - apply ptr_to_bool_false in Hp. subst p.
    split; [congruence |]. intros _. split; reflexivity.
Qed.
End DummyExtras.

Section DummyAdapterExtras.
Context {Base : Type} `{!IAllocator Base} {T : Type} `{!ElemType T}.
Variable size_bits : Z.

(** X18: the adapter over a [DummyAllocator], as the adapter's tests use it.
    A request for 0 elements leaves the allocator and its vector alone.  A
    request that the base allocator serves with an address the vector does
    not hold yet adds that address to the vector, and giving the block back
    through the adapter, with any count, leaves the vector as it was
    before. *)
Theorem dummy_tracks_adapter_roundtrip (a : Stl.StlAllocator T) (n m : Z)
  (h : Heap (Dummy.World Base) T) :
  let size := wrap size_bits (n * sizeof T) in
  let r := allocate (Stl.m_allocator a) size (alignof T)
                    (Dummy.base (world h)) in
  let res := Stl.allocate (IAllocator0 := Dummy.dummy) size_bits a n h in
  let h' := Stl.deallocate (IAllocator0 := Dummy.dummy) a (fst res) m
              (snd res) in
  (n = 0 -> fst res = nullptr /\ h' = h)
  /\ (n <> 0 -> fst r <> nullptr ->
      fst r ∉ Dummy.m_allocations (world h) ->
        fst res = fst r
        /\ Dummy.m_allocations (world (snd res))
           = Dummy.m_allocations (world h) ++ [fst r]
        /\ Dummy.m_allocations (world h') = Dummy.m_allocations (world h)
        /\ Dummy.base (world h')
           = deallocate (Stl.m_allocator a) (fst r) (snd r)).
Proof.
  intros size r res h'. subst h' res.
  unfold Stl.allocate, Stl.deallocate, call_allocate.
  destruct (Z.eqb_spec n 0) as [-> | Hn].
  - simpl. split; [auto | intros; contradiction].
  - split; [intros; contradiction |]. intros _ Hr Hfresh.
    fold size. simpl. unfold Dummy.dummy_allocate. fold r.
    destruct r as [p b]. simpl in *.
    apply ptr_to_bool_true in Hr. rewrite Hr.
    unfold call_deallocate. simpl. unfold Dummy.dummy_deallocate. simpl.
    rewrite (std_find_pushed p _ Hfresh). simpl.
    rewrite delete_middle, app_nil_r. repeat split; reflexivity.
Qed.
End DummyAdapterExtras.

(** Ten [int]s through the adapter, on a [DummyAllocator] over the bump
    allocator. *)
Lemma dummy_tracks_adapter_roundtrip_witness :
  let h := mkHeap (Dummy.mkWorld (Bump.mkWorld 4096 100) []) (∅ : gmap Z Z) [] in
  Dummy.m_allocations
    (world (snd (Stl.allocate (IAllocator0 := Dummy.dummy) 64
                   (Stl.StlAllocator_ctor 16) 10 h))) = [4096]
  /\ Dummy.m_allocations
       (world (Stl.deallocate (IAllocator0 := Dummy.dummy)
                 (Stl.StlAllocator_ctor 16 : Stl.StlAllocator Z)
                 (fst (Stl.allocate (IAllocator0 := Dummy.dummy) 64
                         (Stl.StlAllocator_ctor 16) 10 h)) 10
                 (snd (Stl.allocate (IAllocator0 := Dummy.dummy) 64
                         (Stl.StlAllocator_ctor 16) 10 h)))) = [].
Proof.
  intros h.
  pose proof (dummy_tracks_adapter_roundtrip 64
                (Stl.StlAllocator_ctor 16 : Stl.StlAllocator Z) 10 10 h) as W.
  cbv zeta in W. destruct W as [_ W].
  destruct W as (_ & H1 & H2 & _);
    [lia | vm_compute; discriminate | apply not_elem_of_nil |].
  split; [exact H1 | exact H2].
Defined.

(** ** The scalar pointer's invariant *)

Section ScalarInvariant.
Context {World : Type} `{!IAllocator World} {T : Type} `{!ElemType T}.

Lemma scalar_well_formed_default : Scalar.well_formed Scalar.UniquePtr_default.
Proof. left. reflexivity. Qed.

Lemma scalar_make_unique_well_formed {Args : Type} (ctor : Args -> T)
  (allocator : ptr) (args : Args) (h : Heap World T) :
  Scalar.well_formed (fst (Scalar.make_unique ctor allocator args h)).
Proof.
  unfold Scalar.make_unique, call_allocate.
  destruct (ptr_to_bool allocator) eqn:Ha; simpl;
    [| apply scalar_well_formed_default].
  destruct (allocate allocator _ _ _) as [memory w].
  destruct (ptr_to_bool memory) eqn:Hm; simpl;
    [| apply scalar_well_formed_default].
  apply ptr_to_bool_true in Ha, Hm. right. simpl. auto.
Qed.

Lemma scalar_reachable_well_formed (s : gmap loc Scalar.UniquePtr) :
  Scalar.reachable (World := World) (T := T) s ->
  map_Forall (fun _ p => Scalar.well_formed p) s.
Proof.
  induction 1 as [| l s _ IH _ | l s _ IH _
                  | l s Args ctor allocator args h _ IH _
                  | this other s s' _ IH Hthis [p Hp] Hmove
                  | delta this other o s s' _ IH Hthis Ho Hsub Hconv
                  | this other s h s' h' _ IH [q Hq] [p Hp] Hassign
                  | this other s s' _ IH Hswap | l s _ IH].
  - apply map_Forall_empty.
  - apply map_Forall_insert_2; [apply scalar_well_formed_default | exact IH].
  - apply map_Forall_insert_2; [apply scalar_well_formed_default | exact IH].
  - apply map_Forall_insert_2;
      [apply scalar_make_unique_well_formed | exact IH].
  - rewrite (scalar_move_ctor_spec this other s p Hthis Hp) in Hmove.
    injection Hmove as <-.
    apply map_Forall_insert_2; [apply scalar_well_formed_default |].
    apply map_Forall_insert_2; [exact (IH other p Hp) | exact IH].
  - assert (Hne : this <> other) by congruence.
    rewrite (scalar_convert_ctor_spec delta this other s Hne), Ho in Hconv.
    injection Hconv as <-.
    apply map_Forall_insert_2; [apply scalar_well_formed_default |].
    apply map_Forall_insert_2; [| exact IH].
    destruct (IH other o Ho) as [-> | (Ha & Hptr & Hm)]; [left; reflexivity |].
    right. simpl. unfold Scalar.static_cast_base.
    pose proof Hptr as Hb. apply ptr_to_bool_true in Hb. rewrite Hb. auto.
  - rewrite (scalar_operator_assign_spec this other s h q p Hq Hp) in Hassign.
    destruct (decide (this = other)).
    + injection Hassign as <- _. exact IH.
    + injection Hassign as <- _.
      apply map_Forall_insert_2; [exact (IH other p Hp) |].
      apply map_Forall_insert_2; [apply scalar_well_formed_default | exact IH].
  - rewrite scalar_swap_spec in Hswap.
    destruct (s !! this) as [pa |] eqn:Ha; [| discriminate].
    destruct (s !! other) as [pb |] eqn:Hb; [| discriminate].
    injection Hswap as <-.
    apply map_Forall_insert_2; [exact (IH this pa Ha) |].
    apply map_Forall_insert_2; [exact (IH other pb Hb) | exact IH].
  - apply map_Forall_delete. exact IH.
Qed.

(** X17: every scalar pointer a program can reach has its allocator, object
    pointer and allocation null together or set together.  So its value as a
    [bool] tells what its destructor does: a pointer that is false is
    destroyed without a call, and a pointer that is true has its object
    destroyed and its allocation released. *)
Theorem scalar_triple_invariant (s : gmap loc Scalar.UniquePtr) (l : loc)
  (p : Scalar.UniquePtr) (h : Heap World T) :
  Scalar.reachable (World := World) (T := T) s -> s !! l = Some p ->
  (Scalar.m_allocator p = nullptr /\ Scalar.get p = nullptr
   /\ Scalar.m_allocated_memory p = nullptr
   \/ Scalar.m_allocator p <> nullptr /\ Scalar.get p <> nullptr
      /\ Scalar.m_allocated_memory p <> nullptr)
  /\ (Scalar.operator_bool p = false -> Scalar.dtor p h = h)
  /\ (Scalar.operator_bool p = true ->
      trace (Scalar.dtor p h)
      = trace h ++ [EvDestroy (Scalar.get p);
                    EvDeallocate (Scalar.m_allocator p)
                                 (Scalar.m_allocated_memory p)]).
Proof.
  intros Hreach Hl.
  pose proof (scalar_reachable_well_formed s Hreach l p Hl) as Hwf.
  unfold Scalar.get. split; [| split].
  - destruct Hwf as [-> | (Ha & Hp & Hm)]; [left | right]; auto.
  - unfold Scalar.operator_bool. rewrite negb_involutive. intros Hb.
    unfold Scalar.dtor. rewrite Hb. reflexivity.
  - unfold Scalar.operator_bool. rewrite negb_involutive. intros Hb.
    destruct Hwf as [-> | (Ha & Hp & Hm)]; [discriminate |].
    destruct (scalar_dtor_trace p h) as [_ Hsome].
    rewrite (Hsome Hp Ha). reflexivity.
Qed.
End ScalarInvariant.

Lemma scalar_triple_invariant_witness :
  trace (Scalar.dtor (Scalar.mkUniquePtr 16 4096 4096) (Bump.heap0 100))
  = [EvDestroy 4096; EvDeallocate 16 4096].
Proof.
  assert (Hr : Scalar.reachable (World := Bump.World) (T := Z)
                 {[1%nat := fst (Scalar.make_unique (fun v : Z => v) 16 42
                                   (Bump.heap0 100))]}).
  { apply (Scalar.reach_make_unique 1%nat ∅ Z (fun v : Z => v) 16 42
             (Bump.heap0 100)).
    - apply Scalar.reach_empty.
    - apply lookup_empty. }
  assert (Hl : ({[1%nat := fst (Scalar.make_unique (fun v : Z => v) 16 42
                                  (Bump.heap0 100))]}
                  : gmap loc Scalar.UniquePtr) !! 1%nat
               = Some (Scalar.mkUniquePtr 16 4096 4096))
    by (vm_compute; reflexivity).
  pose proof (scalar_triple_invariant _ 1%nat _ (Bump.heap0 100) Hr Hl)
    as (_ & _ & Ht).
  exact (Ht eq_refl).
Defined.

(** ** Instances on the bump allocator *)

Lemma make_unique_array_spec_witness :
  fst (Arr.make_unique 64 0 16 3 (Bump.heap0 100))
  = Arr.UniquePtr_ctor 16 4096 4096 3
  /\ fst (Arr.make_unique 64 0 16 3 (Bump.heap0 8)) = Arr.UniquePtr_default.
Proof.
  assert (Hn : 0 <= 3) by lia.
  assert (Hfit : 0 <= sizeof Z * 3 < 2 ^ 64) by (vm_compute; split; discriminate || reflexivity).
  pose proof (make_unique_array_spec 64 0 16 3 (Bump.heap0 100) Hn Hfit) as Hok.
  pose proof (make_unique_array_spec 64 0 16 3 (Bump.heap0 8) Hn Hfit) as Hfail.
  cbv zeta in Hok, Hfail.
  destruct Hok as [_ Hok], Hfail as [Hfail _]. split.
  - apply Hok; vm_compute; discriminate.
  - apply Hfail. right. vm_compute. reflexivity.
Defined.

Lemma array_lifetime_roundtrip_witness :
  trace (Arr.dtor (fst (Arr.make_unique 64 0 16 2 (Bump.heap0 100)))
                  (snd (Arr.make_unique 64 0 16 2 (Bump.heap0 100))))
  = [EvAllocate 16 8 4 4096; EvConstruct 4096; EvConstruct 4100;
     EvDestroy 4096; EvDestroy 4100; EvDeallocate 16 4096].
Proof.
  assert (Hn : 0 <= 2) by lia.
  assert (Hfit : 0 <= sizeof Z * 2 < 2 ^ 64) by (vm_compute; split; discriminate || reflexivity).
  pose proof (array_lifetime_roundtrip 64 0 16 2 (Bump.heap0 100) Hn Hfit) as W.
  cbv zeta in W. destruct W as [W _].
  destruct W as (Ht & _); [vm_compute; discriminate | vm_compute; discriminate |].
  exact Ht.
Defined.

Lemma scalar_moved_from_dtor_witness :
  exists s' d q,
    Scalar.move_ctor 3%nat 1%nat {[1%nat := Scalar.mkUniquePtr 16 4096 4096]}
    = Some s'
    /\ s' !! 3%nat = Some d /\ s' !! 1%nat = Some q
    /\ Scalar.dtor q (Bump.heap0 100) = Bump.heap0 100
    /\ trace (Scalar.dtor d (Bump.heap0 100))
       = [EvDestroy 4096; EvDeallocate 16 4096].
Proof.
  assert (H1 : ({[1%nat := Scalar.mkUniquePtr 16 4096 4096]}
                  : gmap loc Scalar.UniquePtr) !! 1%nat
               = Some (Scalar.mkUniquePtr 16 4096 4096))
    by (vm_compute; reflexivity).
  assert (H3 : ({[1%nat := Scalar.mkUniquePtr 16 4096 4096]}
                  : gmap loc Scalar.UniquePtr) !! 3%nat = None)
    by (vm_compute; reflexivity).
  destruct (proj1 (scalar_moved_from_dtor _ 1%nat _ (Bump.heap0 100)
                     (Bump.heap0 100) H1) 3%nat H3)
    as (s' & d & q & Hm & Hd & Hq & Hn & He & _).
  exists s', d, q. rewrite He.
  split; [exact Hm |]. split; [exact Hd |]. split; [exact Hq |].
  split; [exact Hn | reflexivity].
Defined.

Lemma array_move_assign_spec_witness :
  exists s' h',
    Arr.operator_assign 2%nat 1%nat
      ({[1%nat := Arr.mkUniquePtr 16 4096 4096 3;
         2%nat := Arr.mkUniquePtr 16 5000 5000 2]}, Bump.heap0 100)
    = Some (s', h')
    /\ s' !! 2%nat = Some (Arr.mkUniquePtr 16 4096 4096 3)
    /\ s' !! 1%nat = Some (Arr.mkUniquePtr nullptr nullptr nullptr 0)
    /\ trace h' = [EvDestroy 5000; EvDestroy 5004; EvDeallocate 16 5000].
Proof.
  assert (H1 : ({[1%nat := Arr.mkUniquePtr 16 4096 4096 3;
                  2%nat := Arr.mkUniquePtr 16 5000 5000 2]}
                  : gmap loc Arr.UniquePtr) !! 1%nat
               = Some (Arr.mkUniquePtr 16 4096 4096 3))
    by (vm_compute; reflexivity).
  assert (H2 : ({[1%nat := Arr.mkUniquePtr 16 4096 4096 3;
                  2%nat := Arr.mkUniquePtr 16 5000 5000 2]}
                  : gmap loc Arr.UniquePtr) !! 2%nat
               = Some (Arr.mkUniquePtr 16 5000 5000 2))
    by (vm_compute; reflexivity).
  assert (Hne : 2%nat <> 1%nat) by lia.
  destruct (proj2 (array_move_assign_spec _ (Bump.heap0 100) 2%nat 1%nat _ _
                     H2 H1) Hne)
    as (s' & h' & Hm & Hd & Hs & _ & _ & Hown & _).
  exists s', h'. split; [exact Hm |]. split; [exact Hd |]. split; [exact Hs |].
  destruct Hown as (Ht & _); [unfold nullptr; simpl; lia .. |]. exact Ht.
Defined.

Lemma array_moved_from_dtor_witness :
  exists s' d q,
    Arr.move_ctor 3%nat 1%nat {[1%nat := Arr.mkUniquePtr 16 4096 4096 2]}
    = Some s'
    /\ s' !! 3%nat = Some d /\ s' !! 1%nat = Some q
    /\ Arr.dtor q (Bump.heap0 100) = Bump.heap0 100
    /\ trace (Arr.dtor d (Bump.heap0 100))
       = [EvDestroy 4096; EvDestroy 4100; EvDeallocate 16 4096].
Proof.
  assert (H1 : ({[1%nat := Arr.mkUniquePtr 16 4096 4096 2]}
                  : gmap loc Arr.UniquePtr) !! 1%nat
               = Some (Arr.mkUniquePtr 16 4096 4096 2))
    by (vm_compute; reflexivity).
  assert (H3 : ({[1%nat := Arr.mkUniquePtr 16 4096 4096 2]}
                  : gmap loc Arr.UniquePtr) !! 3%nat = None)
    by (vm_compute; reflexivity).
  destruct (array_moved_from_dtor _ 3%nat 1%nat _ (Bump.heap0 100) H1 H3)
    as (s' & d & q & Hm & Hd & Hq & Hn & He & _).
  exists s', d, q. rewrite He.
  split; [exact Hm |]. split; [exact Hd |]. split; [exact Hq |].
  split; [exact Hn | reflexivity].
Defined.

Lemma scalar_swap_algebra_witness :
  (Scalar.swap 1%nat 2%nat
     {[1%nat := Scalar.mkUniquePtr 16 4096 4096;
       2%nat := Scalar.UniquePtr_default]}
   ≫= Scalar.swap 1%nat 2%nat)
  = Some {[1%nat := Scalar.mkUniquePtr 16 4096 4096;
           2%nat := Scalar.UniquePtr_default]}.
Proof.
  assert (H1 : ({[1%nat := Scalar.mkUniquePtr 16 4096 4096;
                  2%nat := Scalar.UniquePtr_default]}
                  : gmap loc Scalar.UniquePtr) !! 1%nat
               = Some (Scalar.mkUniquePtr 16 4096 4096))
    by (vm_compute; reflexivity).
  assert (H2 : ({[1%nat := Scalar.mkUniquePtr 16 4096 4096;
                  2%nat := Scalar.UniquePtr_default]}
                  : gmap loc Scalar.UniquePtr) !! 2%nat
               = Some Scalar.UniquePtr_default)
    by (vm_compute; reflexivity).
  exact (proj1 (proj2 (scalar_swap_algebra _ 1%nat 2%nat _ _ H1 H2))).
Defined.

Lemma array_swap_exchanges_witness :
  exists s',
    Arr.swap 1%nat 2%nat
      {[1%nat := Arr.mkUniquePtr 16 4096 4096 3;
        2%nat := Arr.UniquePtr_default]} = Some s'
    /\ s' !! 1%nat = Some Arr.UniquePtr_default
    /\ s' !! 2%nat = Some (Arr.mkUniquePtr 16 4096 4096 3).
Proof.
  assert (H1 : ({[1%nat := Arr.mkUniquePtr 16 4096 4096 3;
                  2%nat := Arr.UniquePtr_default]}
                  : gmap loc Arr.UniquePtr) !! 1%nat
               = Some (Arr.mkUniquePtr 16 4096 4096 3))
    by (vm_compute; reflexivity).
  assert (H2 : ({[1%nat := Arr.mkUniquePtr 16 4096 4096 3;
                  2%nat := Arr.UniquePtr_default]}
                  : gmap loc Arr.UniquePtr) !! 2%nat
               = Some Arr.UniquePtr_default)
    by (vm_compute; reflexivity).
  destruct (array_swap_exchanges _ 1%nat 2%nat _ _ H1 H2)
    as (s' & Hs & Ha & Hb & _).
  exists s'. split; [exact Hs | split; [exact Ha | exact Hb]].
Defined.

Lemma sole_owner_preserved_witness :
  exists s',
    Scalar.swap 1%nat 2%nat
      {[1%nat := Scalar.mkUniquePtr 16 4096 4096;
        2%nat := Scalar.mkUniquePtr 16 5000 5000]} = Some s'
    /\ Scalar.sole_owner s'.
Proof.
  assert (Hs : Scalar.sole_owner
                 {[1%nat := Scalar.mkUniquePtr 16 4096 4096;
                   2%nat := Scalar.mkUniquePtr 16 5000 5000]}).
  { assert (Hl : forall (l : loc) (q : Scalar.UniquePtr),
              ({[1%nat := Scalar.mkUniquePtr 16 4096 4096;
                 2%nat := Scalar.mkUniquePtr 16 5000 5000]}
                 : gmap loc Scalar.UniquePtr) !! l = Some q ->
              (l = 1%nat /\ Scalar.m_allocated_memory q = 4096)
              \/ (l = 2%nat /\ Scalar.m_allocated_memory q = 5000)).
    { intros l q Hq.
      destruct (decide (l = 1%nat)) as [-> | N1];
        [left | right; destruct (decide (l = 2%nat)) as [-> | N2]];
        simplify_map_eq; auto. }
    intros l1 l2 q1 q2 H1 H2 _ _ Hm.
    destruct (Hl l1 q1 H1) as [[-> E1] | [-> E1]];
      destruct (Hl l2 q2 H2) as [[-> E2] | [-> E2]];
      try reflexivity; rewrite E1, E2 in Hm; discriminate. }
  assert (H1 : ({[1%nat := Scalar.mkUniquePtr 16 4096 4096;
                  2%nat := Scalar.mkUniquePtr 16 5000 5000]}
                  : gmap loc Scalar.UniquePtr) !! 1%nat
               = Some (Scalar.mkUniquePtr 16 4096 4096))
    by (vm_compute; reflexivity).
  assert (H2 : ({[1%nat := Scalar.mkUniquePtr 16 4096 4096;
                  2%nat := Scalar.mkUniquePtr 16 5000 5000]}
                  : gmap loc Scalar.UniquePtr) !! 2%nat
               = Some (Scalar.mkUniquePtr 16 5000 5000))
    by (vm_compute; reflexivity).
  exact (proj1 (proj2 (proj2 (sole_owner_preserved _ (Bump.heap0 100)
                                1%nat 2%nat _ _ Hs H1 H2)))).
Defined.

(** A derived object at 4096 whose second base lies 16 bytes in. *)
Lemma convert_ctor_spec_witness :
  exists s' d,
    Scalar.convert_ctor 16 2%nat 1%nat
      {[1%nat := Scalar.mkUniquePtr 16 4096 4096]} = Some s'
    /\ s' !! 2%nat = Some d
    /\ Scalar.get d = 4112
    /\ trace (Scalar.dtor d (Bump.heap0 100))
       = [EvDestroy 4112; EvDeallocate 16 4096].
Proof.
  assert (H1 : ({[1%nat := Scalar.mkUniquePtr 16 4096 4096]}
                  : gmap loc Scalar.UniquePtr) !! 1%nat
               = Some (Scalar.mkUniquePtr 16 4096 4096))
    by (vm_compute; reflexivity).
  assert (H2 : ({[1%nat := Scalar.mkUniquePtr 16 4096 4096]}
                  : gmap loc Scalar.UniquePtr) !! 2%nat = None)
    by (vm_compute; reflexivity).
  destruct (convert_ctor_spec 16 _ 2%nat 1%nat _ (Bump.heap0 100) H1 H2)
    as (s' & d & Hc & Hd & _ & _ & _ & _ & _ & Hg & Ht).
  assert (Hget : Scalar.get d = 4112)
    by (apply Hg; unfold nullptr; simpl; lia).
  exists s', d. split; [exact Hc |]. split; [exact Hd |].
  split; [exact Hget |].
  destruct Ht as [Ht _];
    [rewrite Hget; unfold nullptr; lia | unfold nullptr; simpl; lia |].
  exact Ht.
Defined.

Lemma array_index_after_make_unique_witness :
  (forall i : Z, 0 <= i < 3 ->
     exists a : ptr,
       Arr.operator_index Debug
         (fst (Arr.make_unique 64 0 16 3 (Bump.heap0 100))) i = Returns a
       /\ objects (snd (Arr.make_unique 64 0 16 3 (Bump.heap0 100))) !! a
          = Some 0)
  /\ Arr.operator_index Debug
       (fst (Arr.make_unique 64 0 16 3 (Bump.heap0 100))) 3 = AssertionFailed.
Proof.
  assert (Hn : 0 <= 3) by lia.
  assert (Hfit : 0 <= sizeof Z * 3 < 2 ^ 64) by (vm_compute; split; discriminate || reflexivity).
  assert (Ha : 16 <> nullptr) by (unfold nullptr; lia).
  assert (Hr : fst (allocate 16 (sizeof Z * 3) (alignof Z)
                      (world (Bump.heap0 100))) <> nullptr)
    by (vm_compute; discriminate).
  exact (array_index_after_make_unique 64 0 16 3 (Bump.heap0 100) Debug
           Hn Hfit Ha Hr).
Defined.

Lemma stl_equal_adapters_interchangeable_witness :
  Stl.deallocate (Stl.StlAllocator_ctor 16 : Stl.StlAllocator Z) 4096 10
    (Bump.heap0 100)
  = Stl.deallocate (Stl.StlAllocator_ctor 16 : Stl.StlAllocator Z) 4096 7
      (Bump.heap0 100).
Proof.
  assert (He : Stl.operator_eq (Stl.StlAllocator_ctor 16 : Stl.StlAllocator Z)
                 (Stl.StlAllocator_ctor 16) = true) by reflexivity.
  exact (proj1 (proj2 (stl_equal_adapters_interchangeable (U := Z) 64
                         (Stl.StlAllocator_ctor 16) (Stl.StlAllocator_ctor 16)
                         (Stl.StlAllocator_ctor 16) 1 10 7 4096
                         (Bump.heap0 100) He))).
Defined.

(** A [DummyAllocator] over the bump allocator, with nothing handed out. *)
Lemma dummy_tracks_scalar_lifetime_witness :
  let h := mkHeap (Dummy.mkWorld (Bump.mkWorld 4096 100) []) (∅ : gmap Z Z) [] in
  Dummy.m_allocations
    (world (snd (Scalar.make_unique (IAllocator0 := Dummy.dummy)
                   (fun v : Z => v) 16 42 h))) = [4096]
  /\ Dummy.m_allocations
       (world (Scalar.dtor (IAllocator0 := Dummy.dummy)
                 (fst (Scalar.make_unique (IAllocator0 := Dummy.dummy)
                         (fun v : Z => v) 16 42 h))
                 (snd (Scalar.make_unique (IAllocator0 := Dummy.dummy)
                         (fun v : Z => v) 16 42 h)))) = [].
Proof.
  intros h.
  assert (Ha : 16 <> nullptr) by (unfold nullptr; lia).
  pose proof (dummy_tracks_scalar_lifetime (fun v : Z => v) 16 42 h Ha) as W.
  cbv zeta in W. destruct W as [W _].
  destruct W as (H1 & H2 & _);
    [vm_compute; discriminate | apply not_elem_of_nil |].
  split; [exact H1 | exact H2].
Defined.

Lemma scalar_lifetime_roundtrip_witness :
  trace (Scalar.dtor
           (fst (Scalar.make_unique (fun v : Z => v) 16 42 (Bump.heap0 100)))
           (snd (Scalar.make_unique (fun v : Z => v) 16 42 (Bump.heap0 100))))
  = [EvAllocate 16 4 4 4096; EvConstruct 4096; EvDestroy 4096;
     EvDeallocate 16 4096]
  /\ Scalar.dtor
       (fst (Scalar.make_unique (fun v : Z => v) 16 42 (Bump.heap0 0)))
       (snd (Scalar.make_unique (fun v : Z => v) 16 42 (Bump.heap0 0)))
     = snd (Scalar.make_unique (fun v : Z => v) 16 42 (Bump.heap0 0)).
Proof.
  pose proof (scalar_lifetime_roundtrip (fun v : Z => v) 16 42
                (Bump.heap0 100)) as Hok.
  pose proof (scalar_lifetime_roundtrip (fun v : Z => v) 16 42
                (Bump.heap0 0)) as Hfail.
  cbv zeta in Hok, Hfail. destruct Hok as [Hok _], Hfail as [_ Hfail]. split.
  - destruct Hok as (Ht & _); [vm_compute; discriminate .. |]. exact Ht.
  - destruct Hfail as (Hh & _); [right; vm_compute; reflexivity |]. exact Hh.
Defined.

Lemma array_operator_index_bounds_witness :
  Arr.operator_index (T := Z) Debug (Arr.mkUniquePtr 16 4096 4096 3) 2
  = Returns 4104
  /\ Arr.operator_index (T := Z) Debug (Arr.mkUniquePtr 16 4096 4096 3) 3
     = AssertionFailed
  /\ Arr.operator_index (T := Z) Release (Arr.mkUniquePtr 16 4096 4096 3) 3
     = Returns 4108.
Proof.
  pose proof (array_operator_index_bounds (T := Z)
                (Arr.mkUniquePtr 16 4096 4096 3) 2) as (Hin & _).
  pose proof (array_operator_index_bounds (T := Z)
                (Arr.mkUniquePtr 16 4096 4096 3) 3) as (_ & Hdbg & Hrel & _).
  split; [| split].
  - apply Hin; [unfold nullptr; simpl; lia | simpl; lia].
  - apply Hdbg. right. simpl. lia.
  - apply Hrel; [unfold nullptr; simpl; lia | simpl; lia].
Defined.

Lemma stl_allocate_deallocate_roundtrip_witness :
  trace (Stl.deallocate (Stl.StlAllocator_ctor 16 : Stl.StlAllocator Z)
           (fst (Stl.allocate 64 (Stl.StlAllocator_ctor 16) 10
                   (Bump.heap0 100))) 10
           (snd (Stl.allocate 64 (Stl.StlAllocator_ctor 16) 10
                   (Bump.heap0 100))))
  = [EvAllocate 16 40 4 4096; EvDeallocate 16 4096].
Proof.
  pose proof (stl_allocate_deallocate_roundtrip 64
                (Stl.StlAllocator_ctor 16 : Stl.StlAllocator Z) 10 10
                (Bump.heap0 100)) as W.
  cbv zeta in W. destruct W as (_ & _ & Hok & _).
  destruct Hok as (_ & Ht & _); [lia | vm_compute; discriminate |]. exact Ht.
Defined.

